(** * Source-to-rendered-view synchronisation and decoration engine

    A shallow embedding of the selection resolver ([getSelectionLineRange])
    and of the decoration controller ([applyDecorationsToVditor],
    [clearDecorations]) of the markdown editor webview, with the properties
    of its specification stated and settled on the embedding.

    JavaScript strings are sequences of UTF-16 code units; they are modelled
    as [list N].  Numbers that the code compares with [-1] or that arrive
    from outside (line indices of a change set) are modelled as [Z]. *)

From Stdlib Require Import ZArith List Bool Ascii String Lia.
From stdpp Require Import base option list gmap strings.

Import ListNotations.
Local Open Scope Z_scope.

(* ================================================================== *)
(** * JavaScript strings *)
(* ================================================================== *)

Module JsString.

(** A string value: its UTF-16 code units, in order. *)
Abbreviation jsstring := (list N).

(** ASCII literals, for readable examples. *)
Definition js (s : string) : jsstring :=
  List.map N_of_ascii (list_ascii_of_string s).

Definition LF : N := 10%N.
Definition SP : N := 32%N.

(** [s.length] *)
Definition len (s : jsstring) : Z := Z.of_nat (List.length s).

(** [s === t] *)
Fixpoint streq (s t : jsstring) : bool :=
  match s, t with
  | [], [] => true
  | a :: s', b :: t' => N.eqb a b && streq s' t'
  | _, _ => false
  end.

(** The class [\s] of a regular expression, which is also the set of
    code units that [trim()] strips: WhiteSpace and LineTerminator. *)
Definition is_ws (c : N) : bool :=
  ((9 <=? c) && (c <=? 13) || (c =? 32) || (c =? 160) || (c =? 5760)
   || (8192 <=? c) && (c <=? 8202) || (c =? 8232) || (c =? 8233)
   || (c =? 8239) || (c =? 8287) || (c =? 12288) || (c =? 65279))%N.

(** [s.split('\n')]: the segments between line feeds; an input of [n]
    line feeds gives [n + 1] segments, empty ones included. *)
Fixpoint split (s : jsstring) : list jsstring :=
  match s with
  | [] => [[]]
  | c :: s' =>
      if (c =? LF)%N then [] :: split s'
      else match split s' with
           | [] => [[c]]
           | l :: ls => (c :: l) :: ls
           end
  end.

(** [lines.join('\n')] *)
Fixpoint join (ls : list jsstring) : jsstring :=
  match ls with
  | [] => []
  | [l] => l
  | l :: rest => l ++ LF :: join rest
  end.

(** [s.startsWith(t)], the test at one position of a substring search. *)
Fixpoint startsWith (s t : jsstring) {struct t} : bool :=
  match t, s with
  | [], _ => true
  | _ :: _, [] => false
  | b :: t', a :: s' => N.eqb a b && startsWith s' t'
  end.

Fixpoint indexOf_from (s t : jsstring) (i : Z) : Z :=
  if startsWith s t then i
  else match s with
       | [] => -1
       | _ :: s' => indexOf_from s' t (i + 1)
       end.

(** [s.indexOf(t)]: the least position at which [t] occurs, or [-1]. *)
Definition indexOf (s t : jsstring) : Z := indexOf_from s t 0.

(** [s.includes(t)] *)
Definition includes (s t : jsstring) : bool := negb (indexOf s t =? -1).

(** [s.replace(/\s+/g, ' ')]: every maximal run of white space becomes
    one space.  [in_run] says that the previous code unit was white
    space, so the run has been replaced already. *)
Fixpoint collapse_from (in_run : bool) (s : jsstring) : jsstring :=
  match s with
  | [] => []
  | c :: s' =>
      if is_ws c
      then (if in_run then collapse_from true s'
            else SP :: collapse_from true s')
      else c :: collapse_from false s'
  end.

Definition collapse_ws (s : jsstring) : jsstring := collapse_from false s.

Fixpoint trimStart (s : jsstring) : jsstring :=
  match s with
  | [] => []
  | c :: s' => if is_ws c then trimStart s' else s
  end.

(** [s.trim()] *)
Definition trim (s : jsstring) : jsstring :=
  List.rev (trimStart (List.rev (trimStart s))).

(** [s.substring(0, n)] for [n >= 0]. *)
Definition substring0 (s : jsstring) (n : nat) : jsstring := firstn n s.

(** [/\s/.test(s[i])]; outside the string [s[i]] is [undefined], which
    the test reads as the text "undefined": no white space. *)
Definition wsAt (s : jsstring) (i : Z) : bool :=
  if i <? 0 then false
  else match nth_error s (Z.to_nat i) with
       | Some c => is_ws c
       | None => false
       end.

(** A string is falsy exactly when it is empty. *)
Definition truthy (s : jsstring) : bool :=
  match s with [] => false | _ :: _ => true end.

End JsString.

Import JsString.

(* ================================================================== *)
(** * The rendered view and the editor state *)
(* ================================================================== *)

Module Dom.

(** One element below the [.vditor-ir] container.  The container's
    descendants are kept in document order, as [querySelectorAll] returns
    them, and an element is identified by its position in that list.
    [parentElement = None] says that the parent is the container itself. *)
Record Element := mkElement {
  localName : string;
  classList : list string;
  textContent : jsstring;
  parentElement : option nat
}.

(** [el.classList.contains(c)] *)
Definition contains (c : string) (el : Element) : bool :=
  existsb (String.eqb c) (classList el).

Definition setClassList (cs : list string) (el : Element) : Element :=
  {| localName := localName el; classList := cs;
     textContent := textContent el; parentElement := parentElement el |}.

(** [el.classList.add(c)]: a token list holds a class once. *)
Definition add (c : string) (el : Element) : Element :=
  if contains c el then el else setClassList (classList el ++ [c]) el.

(** [el.classList.remove(c1, c2, ...)] *)
Definition remove (cs : list string) (el : Element) : Element :=
  setClassList
    (List.filter (fun c => negb (existsb (String.eqb c) cs)) (classList el))
    el.

Definition hasTag (names : list string) (el : Element) : bool :=
  existsb (String.eqb (localName el)) names.

(** [container.querySelectorAll(sel)]: the positions of the matching
    descendants, in document order. *)
Fixpoint querySelectorAll_from (sel : Element -> bool)
         (els : list Element) (i : nat) : list nat :=
  match els with
  | [] => []
  | el :: rest =>
      if sel el then i :: querySelectorAll_from sel rest (S i)
      else querySelectorAll_from sel rest (S i)
  end.

Definition querySelectorAll (sel : Element -> bool) (els : list Element)
  : list nat := querySelectorAll_from sel els 0.

End Dom.

Import Dom.

Definition cline_added_line : string := "cline-added-line".
Definition cline_deleted_line : string := "cline-deleted-line".
Definition cline_modified_line : string := "cline-modified-line".
Definition vditor_ir__node : string := "vditor-ir__node".
Definition vditor_ir__block : string := "vditor-ir__block".

Definition decorationClasses : list string :=
  [cline_added_line; cline_deleted_line; cline_modified_line].

(** ['p, div.vditor-ir__node, h1, h2, h3, h4, h5, h6, li, pre, blockquote,
    td, th, .vditor-ir__block'] *)
Definition blockSelector (el : Element) : bool :=
  hasTag ["p"; "h1"; "h2"; "h3"; "h4"; "h5"; "h6"; "li"; "pre";
          "blockquote"; "td"; "th"]%string el
  || (String.eqb (localName el) "div" && contains vditor_ir__node el)
  || contains vditor_ir__block el.

(** ['p, div, h1, h2, h3, h4, h5, h6, li, pre, blockquote,
    .vditor-ir__node'] *)
Definition lastResortSelector (el : Element) : bool :=
  hasTag ["p"; "div"; "h1"; "h2"; "h3"; "h4"; "h5"; "h6"; "li"; "pre";
          "blockquote"]%string el
  || contains vditor_ir__node el.

(** ['.cline-added-line, .cline-deleted-line, .cline-modified-line'] *)
Definition decoratedSelector (el : Element) : bool :=
  contains cline_added_line el || contains cline_deleted_line el
  || contains cline_modified_line el.

Inductive Mode := wysiwyg | ir | sv.

(** The change set of an ['apply-decorations'] message. *)
Record Decorations := mkDecorations {
  added : list Z;
  deleted : list Z;
  modified : list Z
}.

(** The callbacks handed to [setTimeout]. *)
Inductive Task :=
| CallApply (decorations : option Decorations) (retry : nat)
    (** [() => applyDecorationsToVditor(decorations, retry)] *)
| TagPass (decorations : Decorations) (retry : nat).
    (** the callback inside [applyDecorationsToVditor] *)

(** What the webview's code reads and writes. *)
Record State := mkState {
  vditor : bool;                        (** [window.vditor] is set *)
  currentMode : option Mode;            (** [vditor.vditor?.currentMode] *)
  value : jsstring;                     (** [vditor.getValue()] *)
  irContainer : option (list Element);  (** [querySelector('.vditor-ir')] *)
  previousMode : option Mode;           (** the module variable *)
  floatingToolbar : option bool;
    (** [#cline-floating-toolbar], when it exists: has class [visible] *)
  now : Z;                              (** the clock, in milliseconds *)
  timers : list (Z * Task)              (** pending timers with due times *)
}.

Definition setIrContainer (c : option (list Element)) (st : State) : State :=
  mkState (vditor st) (currentMode st) (value st) c (previousMode st)
          (floatingToolbar st) (now st) (timers st).

Definition setPreviousMode (m : option Mode) (st : State) : State :=
  mkState (vditor st) (currentMode st) (value st) (irContainer st) m
          (floatingToolbar st) (now st) (timers st).

Definition setFloatingToolbar (t : option bool) (st : State) : State :=
  mkState (vditor st) (currentMode st) (value st) (irContainer st)
          (previousMode st) t (now st) (timers st).

Definition setCurrentMode (m : option Mode) (st : State) : State :=
  mkState (vditor st) m (value st) (irContainer st) (previousMode st)
          (floatingToolbar st) (now st) (timers st).

Definition setClock (t : Z) (ts : list (Z * Task)) (st : State) : State :=
  mkState (vditor st) (currentMode st) (value st) (irContainer st)
          (previousMode st) (floatingToolbar st) t ts.

(** [setTimeout(task, delay)] *)
Definition setTimeout (task : Task) (delay : Z) (st : State) : State :=
  setClock (now st) (timers st ++ [(now st + delay, task)]) st.

(** The affordance is on screen when the toolbar exists and is [visible]. *)
Definition affordanceVisible (st : State) : bool :=
  match floatingToolbar st with Some v => v | None => false end.

(** The decorated nodes: positions of the elements that carry a tag. *)
Definition taggedNodes (st : State) : list nat :=
  match irContainer st with
  | Some els => querySelectorAll decoratedSelector els
  | None => []
  end.

(* ================================================================== *)
(** * Selection resolver: [getSelectionLineRange] *)
(* ================================================================== *)

Record SelectionInfo := mkSelectionInfo {
  text : jsstring;
  startLine : Z;
  endLine : Z;
  startChar : Z;
  endChar : Z
}.

(** The inner loop of the re-expansion: while the next code unit is white
    space and not the last one, move on.  At most one round per code
    unit, so the length of the source is fuel enough. *)
Fixpoint skipWhitespace (fuel : nat) (s : jsstring) (originalPos : Z) : Z :=
  match fuel with
  | O => originalPos
  | S fuel' =>
      if (originalPos <? len s - 1) && wsAt s (originalPos + 1)
      then skipWhitespace fuel' s (originalPos + 1)
      else originalPos
  end.

(** The outer loop: one round per position of the normalized text. *)
Fixpoint mapBack (fuel : nat) (s : jsstring) (normalizedMatchIndex : Z)
         (originalPos normalizedPos : Z) : Z :=
  match fuel with
  | O => originalPos
  | S fuel' =>
      if (normalizedPos <? normalizedMatchIndex) && (originalPos <? len s)
      then
        let originalPos1 :=
          if wsAt s originalPos
          then skipWhitespace (List.length s) s originalPos
          else originalPos in
        mapBack fuel' s normalizedMatchIndex (originalPos1 + 1)
                (normalizedPos + 1)
      else originalPos
  end.

(** The two [for] loops that turn an offset into a line and a column:
    the first line whose end (its line feed counted) lies beyond the
    offset; [dflt] is what the variables hold when no line qualifies. *)
Fixpoint lineOfOffset (lines : list jsstring) (offset charCount i : Z)
         (dflt : Z * Z) : Z * Z :=
  match lines with
  | [] => dflt
  | l :: rest =>
      let lineLength := len l + 1 in
      if charCount + lineLength >? offset then (i, offset - charCount)
      else lineOfOffset rest offset (charCount + lineLength) (i + 1) dflt
  end.

(** The fallback loop over the source lines, from line [i] on. *)
Fixpoint firstLineFallback (selectedText firstSelectionLine : jsstring)
         (nlines : Z) (lines : list jsstring) (i : Z)
  : option SelectionInfo :=
  match lines with
  | [] => None
  | l :: rest =>
      if includes l firstSelectionLine then
        let selectionLines := split selectedText in
        Some {| text := selectedText;
                startLine := i;
                endLine :=
                  Z.min (i + Z.of_nat (List.length selectionLines) - 1)
                        (nlines - 1);
                startChar := indexOf l firstSelectionLine;
                endChar :=
                  if (List.length selectionLines =? 1)%nat
                  then indexOf l firstSelectionLine + len firstSelectionLine
                  else len (List.last selectionLines []) |}
      else firstLineFallback selectedText firstSelectionLine nlines rest
                             (i + 1)
  end.

(** The second tier: [matchIndex] after the search in the normalized
    source; [-1] when that search fails too. *)
Definition normalizedMatch (sourceMarkdown selectedText : jsstring) : Z :=
  let normalizedSelection := trim (collapse_ws selectedText) in
  let normalizedSource := collapse_ws sourceMarkdown in
  let normalizedMatchIndex := indexOf normalizedSource normalizedSelection in
  if negb (normalizedMatchIndex =? -1)
  then mapBack (List.length sourceMarkdown) sourceMarkdown
               normalizedMatchIndex 0 0
  else -1.

Definition getSelectionLineRange (st : State) (selectedText : jsstring)
  : option SelectionInfo :=
  if negb (vditor st) || negb (truthy selectedText) then None
  else
    let sourceMarkdown := value st in
    let lines := split sourceMarkdown in
    let matchIndex0 := indexOf sourceMarkdown selectedText in
    let matchIndex :=
      if matchIndex0 =? -1 then normalizedMatch sourceMarkdown selectedText
      else matchIndex0 in
    if matchIndex =? -1 then
      let firstSelectionLine := trim (List.hd [] (split selectedText)) in
      firstLineFallback selectedText firstSelectionLine
                        (Z.of_nat (List.length lines)) lines 0
    else
      let '(startLine, startChar) :=
        lineOfOffset lines matchIndex 0 0 (0, 0) in
      let endIndex := matchIndex + len selectedText in
      let '(endLine, endChar) :=
        lineOfOffset lines endIndex 0 0
                     (startLine, startChar + len selectedText) in
      Some {| text := selectedText;
              startLine := startLine; endLine := endLine;
              startChar := startChar; endChar := endChar |}.

(** The offset of a line and column: every earlier line counts with its
    line feed. *)
Fixpoint lineColToOffset (lines : list jsstring) (line : nat) (col : Z) : Z :=
  match line, lines with
  | S line', l :: rest => len l + 1 + lineColToOffset rest line' col
  | _, _ => col
  end.

(** The length of the text that [lines] make up, the line feed after
    every line counted. *)
Fixpoint span (lines : list jsstring) : Z :=
  match lines with
  | [] => 0
  | l :: rest => len l + 1 + span rest
  end.

(** [sel] occurs in [s] at position [i]. *)
Definition occursAt (s sel : jsstring) (i : Z) : Prop :=
  0 <= i /\ firstn (List.length sel) (skipn (Z.to_nat i) s) = sel.

(* ================================================================== *)
(** * Node mapper: the three strategies of the tagging pass *)
(* ================================================================== *)

(** [lines.forEach((line, lineIndex) => ...)] visits the lines with their
    indices. *)
Fixpoint indexed_from {A} (l : list A) (i : Z) : list (Z * A) :=
  match l with
  | [] => []
  | x :: rest => (i, x) :: indexed_from rest (i + 1)
  end.

Definition indexed {A} (l : list A) : list (Z * A) := indexed_from l 0.

(** The test of strategy 1 on one element. *)
Definition matchesExactly (lineText : jsstring) (el : Element) : bool :=
  let normalizedElText := trim (collapse_ws (textContent el)) in
  let normalizedLineText := trim (collapse_ws lineText) in
  streq normalizedElText normalizedLineText
  || includes normalizedElText normalizedLineText
  || ((20 <? len normalizedLineText)
      && includes normalizedElText (substring0 normalizedLineText 20)).

(** The test of strategy 2 on one element. *)
Definition matchesByPrefix (lineText : jsstring) (el : Element) : bool :=
  let elText := trim (textContent el) in
  truthy elText
  && (includes elText (substring0 lineText 15)
      || includes lineText (substring0 elText 15)).

(** [for (const el of allBlockElements)] with [continue] on a used
    element and [break] on the first match. *)
Fixpoint firstUnused (test : Element -> bool) (els : list Element)
         (usedElements : gset nat) (candidates : list nat) : option nat :=
  match candidates with
  | [] => None
  | e :: rest =>
      if bool_decide (e ∈ usedElements)
      then firstUnused test els usedElements rest
      else match els !! e with
           | Some el =>
               if test el then Some e
               else firstUnused test els usedElements rest
           | None => firstUnused test els usedElements rest
           end
  end.

(** The same loop started at position [i] of the candidates, which
    reports the position of the match as well. *)
Fixpoint firstUnusedFrom (test : Element -> bool) (els : list Element)
         (usedElements : gset nat) (candidates : list nat) (i : nat)
  : option (nat * nat) :=
  match candidates with
  | [] => None
  | e :: rest =>
      if bool_decide (e ∈ usedElements)
      then firstUnusedFrom test els usedElements rest (S i)
      else match els !! e with
           | Some el =>
               if test el then Some (i, e)
               else firstUnusedFrom test els usedElements rest (S i)
           | None => firstUnusedFrom test els usedElements rest (S i)
           end
  end.

Section NodeMapper.

Variable els : list Element.
Variable allBlockElements : list nat.

(** Strategy 1: exact text matching. *)
Definition strategy1 (acc : gmap Z nat * gset nat) (entry : Z * jsstring)
  : gmap Z nat * gset nat :=
  let '(lineToElementMap, usedElements) := acc in
  let '(lineIndex, line) := entry in
  if truthy (trim line) then
    match firstUnused (matchesExactly (trim line)) els usedElements
                      allBlockElements with
    | Some e => (<[lineIndex := e]> lineToElementMap, {[e]} ∪ usedElements)
    | None => acc
    end
  else acc.

(** Strategy 2: positional matching behind a cursor.  (The source also
    computes the start offset of every line here and never reads it.) *)
Definition strategy2 (acc : gmap Z nat * gset nat * nat)
           (entry : Z * jsstring) : gmap Z nat * gset nat * nat :=
  let '(lineToElementMap, usedElements, elementIndex) := acc in
  let '(lineIndex, line) := entry in
  if negb (bool_decide (is_Some (lineToElementMap !! lineIndex)))
     && truthy (trim line)
     && (elementIndex <? List.length allBlockElements)%nat
  then
    match firstUnusedFrom (matchesByPrefix (trim line)) els usedElements
                          (skipn elementIndex allBlockElements)
                          elementIndex with
    | Some (i, e) =>
        (<[lineIndex := e]> lineToElementMap, {[e]} ∪ usedElements, S i)
    | None => acc
    end
  else acc.

(** [for (let i = lineIndex - 1; i >= 0; i--)]; [n] is [lineIndex]. *)
Fixpoint closestBefore (lineToElementMap : gmap Z nat) (n : nat)
  : option nat :=
  match n with
  | O => None
  | S i =>
      match lineToElementMap !! Z.of_nat i with
      | Some e => Some e
      | None => closestBefore lineToElementMap i
      end
  end.

(** [for (let i = lineIndex + 1; i < lines.length; i++)]; [count] is the
    number of lines left. *)
Fixpoint closestAfter (lineToElementMap : gmap Z nat) (i : Z) (count : nat)
  : option nat :=
  match count with
  | O => None
  | S count' =>
      match lineToElementMap !! i with
      | Some e => Some e
      | None => closestAfter lineToElementMap (i + 1) count'
      end
  end.

(** Strategy 3: proximity, for blank and still unmatched lines. *)
Definition strategy3 (nlines : nat) (lineToElementMap : gmap Z nat)
           (entry : Z * jsstring) : gmap Z nat :=
  let '(lineIndex, line) := entry in
  if negb (bool_decide (is_Some (lineToElementMap !! lineIndex))) then
    let beforeElement :=
      closestBefore lineToElementMap (Z.to_nat lineIndex) in
    let afterElement :=
      closestAfter lineToElementMap (lineIndex + 1)
                   (nlines - S (Z.to_nat lineIndex)) in
    match beforeElement, afterElement with
    | Some e, _ => <[lineIndex := e]> lineToElementMap
    | None, Some e => <[lineIndex := e]> lineToElementMap
    | None, None => lineToElementMap
    end
  else lineToElementMap.

(** The map from line indices to elements that the three passes build. *)
Definition buildLineToElementMap (lines : list jsstring) : gmap Z nat :=
  let '(m1, used1) := fold_left strategy1 (indexed lines) (∅, ∅) in
  let '(m2, _, _) := fold_left strategy2 (indexed lines) (m1, used1, O) in
  fold_left (strategy3 (List.length lines)) (indexed lines) m2.

End NodeMapper.

(* ================================================================== *)
(** * Decoration controller *)
(* ================================================================== *)

(** Apply [f] to the element at position [i]. *)
Definition updateElement (f : Element -> Element) (i : nat)
           (els : list Element) : list Element := alter f i els.

(** The last resort of [applyDecorationToLine]: the first element, among
    the ones of the wider selector, whose text contains the line. *)
Definition findByText (lineText : jsstring) (els : list Element)
  : option nat :=
  List.find
    (fun e =>
       match els !! e with
       | Some el =>
           includes (textContent el) lineText
           || ((15 <? len lineText)
               && includes (textContent el) (substring0 lineText 15))
       | None => false
       end)
    (querySelectorAll lastResortSelector els).

(** [applyDecorationToLine(lineNum, className)].  [None] stands for the
    [TypeError] of [lines[lineNum].trim()] on a missing line; the guard on
    the line number is what keeps it from happening. *)
Definition applyDecorationToLine (lines : list jsstring)
           (lineToElementMap : gmap Z nat) (lineNum : Z) (className : string)
           (els : list Element) : option (list Element) :=
  if (lineNum <? 0) || (lineNum >=? Z.of_nat (List.length lines)) then Some els
  else
    match lineToElementMap !! lineNum with
    | Some element =>
        let els1 := updateElement (add className) element els in
        match els1 !! element with
        | Some el =>
            match parentElement el with
            | Some parent =>
                match els1 !! parent with
                | Some pel =>
                    if contains vditor_ir__node pel
                    then Some (updateElement (add className) parent els1)
                    else Some els1
                | None => Some els1
                end
            | None => Some els1
            end
        | None => Some els1
        end
    | None =>
        match nth_error lines (Z.to_nat lineNum) with
        | None => None
        | Some line =>
            let lineText := trim line in
            if truthy lineText then
              match findByText lineText els with
              | Some found => Some (updateElement (add className) found els)
              | None => Some els
              end
            else Some els
        end
    end.

(** [indices.forEach((n) => applyDecorationToLine(n, className))]: the
    elements after the loop, and whether it ran to its end. *)
Fixpoint forEachLine (lines : list jsstring) (lineToElementMap : gmap Z nat)
         (className : string) (indices : list Z) (els : list Element)
  : list Element * bool :=
  match indices with
  | [] => (els, true)
  | n :: rest =>
      match applyDecorationToLine lines lineToElementMap n className els with
      | Some els' => forEachLine lines lineToElementMap className rest els'
      | None => (els, false)
      end
  end.

(** The three loops over [added], [deleted] and [modified]. *)
Definition decorate (lines : list jsstring) (lineToElementMap : gmap Z nat)
           (d : Decorations) (els : list Element) : list Element * bool :=
  let '(els1, ok1) :=
    forEachLine lines lineToElementMap cline_added_line (added d) els in
  if ok1 then
    let '(els2, ok2) :=
      forEachLine lines lineToElementMap cline_deleted_line (deleted d)
                  els1 in
    if ok2 then
      forEachLine lines lineToElementMap cline_modified_line (modified d)
                  els2
    else (els2, false)
  else (els1, false).

(** [showFloatingToolbar()]: the toolbar is created when missing. *)
Definition showFloatingToolbar (st : State) : State :=
  setFloatingToolbar (Some true) st.

(** [hideFloatingToolbar()] *)
Definition hideFloatingToolbar (st : State) : State :=
  match floatingToolbar st with
  | Some _ => setFloatingToolbar (Some false) st
  | None => st
  end.

(** One element of the loop of [clearDecorations]. *)
Definition undecorate (el : Element) : Element :=
  if decoratedSelector el then remove decorationClasses el else el.

Definition clearDecorations (st : State) : State :=
  if negb (vditor st) then st
  else
    match irContainer st with
    | None => st
    | Some els =>
        hideFloatingToolbar
          (setPreviousMode None
             (setIrContainer (Some (List.map undecorate els)) st))
    end.

(** [new Set([...added, ...deleted, ...modified])] *)
Definition touched (d : Decorations) : gset Z :=
  list_to_set (added d ++ deleted d ++ modified d).

Definition applyDecorationsToVditor (decorations : option Decorations)
           (retry : nat) (st : State) : State :=
  match decorations with
  | None => st
  | Some d =>
      if negb (vditor st) then st
      else
        let st1 := clearDecorations st in
        let st2 :=
          match previousMode st1 with
          | None =>
              setPreviousMode
                (Some (match currentMode st1 with Some m => m | None => ir end))
                st1
          | Some _ => st1
          end in
        setTimeout (TagPass d retry) 200 st2
  end.

(** The callback that [applyDecorationsToVditor] hands to [setTimeout]. *)
Definition tagPass (d : Decorations) (retry : nat) (st : State) : State :=
  match irContainer st with
  | Some els =>
      if vditor st then
        let lines := split (value st) in
        let allBlockElements := querySelectorAll blockSelector els in
        let lineToElementMap :=
          buildLineToElementMap els allBlockElements lines in
        let '(els', ok) := decorate lines lineToElementMap d els in
        let st' := setIrContainer (Some els') st in
        if ok && (0 <? size (touched d))%nat then showFloatingToolbar st'
        else st'
      else
        if (retry <? 5)%nat
        then setTimeout (CallApply (Some d) (retry + 1)) 200 st
        else st
  | None =>
      if (retry <? 5)%nat
      then setTimeout (CallApply (Some d) (retry + 1)) 200 st
      else st
  end.

(* ================================================================== *)
(** * The event loop of the webview *)
(* ================================================================== *)

Definition runTask (t : Task) (st : State) : State :=
  match t with
  | CallApply d retry => applyDecorationsToVditor d retry st
  | TagPass d retry => tagPass d retry st
  end.

(** The position of the timer that fires next: the least due time, the
    older timer among equals. *)
Fixpoint nextTimer_from (ts : list (Z * Task)) (i : nat)
         (best : option (nat * Z)) : option nat :=
  match ts with
  | [] => option_map fst best
  | (due, _) :: rest =>
      match best with
      | Some (_, bdue) =>
          if due <? bdue then nextTimer_from rest (S i) (Some (i, due))
          else nextTimer_from rest (S i) best
      | None => nextTimer_from rest (S i) (Some (i, due))
      end
  end.

Definition nextTimer (st : State) : option nat :=
  nextTimer_from (timers st) 0 None.

(** The messages of the extension that concern decorations. *)
Inductive Msg :=
| apply_decorations (decorations : option Decorations)
| clear_decorations.

(** The listener of [window]'s ['message'] event. *)
Definition onMessage (msg : Msg) (st : State) : State :=
  match msg with
  | apply_decorations d =>
      if negb (vditor st) then setTimeout (CallApply d 0) 500 st
      else applyDecorationsToVditor d 0 st
  | clear_decorations => clearDecorations st
  end.

(** What can happen to the webview, one task of the event loop each. *)
Inductive Event :=
| Message (msg : Msg)               (** a message of the extension *)
| Timeout                           (** the next timer fires *)
| Wait (ms : Z)                     (** time passes *)
| Rendered (els : list Element)     (** the engine builds the tree *)
| ModeSwitched (m : Mode).          (** the user changes the edit mode *)

Definition handle (st : State) (e : Event) : State :=
  match e with
  | Message msg => onMessage msg st
  | Timeout =>
      match nextTimer st with
      | Some i =>
          match timers st !! i with
          | Some (due, task) =>
              runTask task
                (setClock (Z.max (now st) due) (delete i (timers st)) st)
          | None => st
          end
      | None => st
      end
  | Wait ms => setClock (now st + Z.max 0 ms) (timers st) st
  | Rendered els => setIrContainer (Some els) st
  | ModeSwitched m => setCurrentMode (Some m) st
  end.

Definition run (st : State) (events : list Event) : State :=
  fold_left handle events st.

(* ================================================================== *)
(** * Notions used by the properties *)
(* ================================================================== *)

(** The decoration state is idle: no node carries a tag, no mode is saved
    and the affordance is not on screen. *)
Definition Idle (st : State) : Prop :=
  taggedNodes st = [] /\ previousMode st = None
  /\ affordanceVisible st = false.

(** The mode that [applyDecorationsToVditor] reads: the engine's current
    mode, ['ir'] when it has none. *)
Definition modeOrIr (st : State) : Mode :=
  match currentMode st with Some m => m | None => ir end.

(** The line numbers that pass the guard of [applyDecorationToLine]. *)
Definition inRange (nlines : nat) (n : Z) : bool :=
  negb ((n <? 0) || (n >=? Z.of_nat nlines)).

Definition inRangeOnly (nlines : nat) (d : Decorations) : Decorations :=
  {| added := List.filter (inRange nlines) (added d);
     deleted := List.filter (inRange nlines) (deleted d);
     modified := List.filter (inRange nlines) (modified d) |}.

(** An editor without a rendered tree, on a given document. *)
Definition exampleEditor (doc : jsstring) : State :=
  mkState true (Some ir) doc None None None 0 [].

(** A paragraph directly below the container. *)
Definition paragraph (t : string) : Element := mkElement "p" [] (js t) None.

(** The change sets and the document of the retry scenario. *)
Definition changeA : Decorations := mkDecorations [0] [] [].
Definition changeB : Decorations := mkDecorations [] [] [1].
Definition twoLines : jsstring := js "a" ++ LF :: js "b".

(** [apply(A)] meets an editor without tree, its tagging pass schedules
    the retry; then the tree appears, and [clear()] and [apply(B)] run. *)
Definition supersedingEvents : list Event :=
  [ Message (apply_decorations (Some changeA));
    Timeout;
    Rendered [paragraph "a"; paragraph "b"];
    Wait 50;
    Message clear_decorations;
    Message (apply_decorations (Some changeB)) ].

(** An editor in mode [m] with a rendered tree. *)
Definition renderedEditor (m : Mode) (doc : jsstring) (els : list Element)
  : State := mkState true (Some m) doc (Some els) None None 0 [].

(* ================================================================== *)
(** * Further notions: the node mapper and the tagging pass *)
(* ================================================================== *)

(** The map after the two reserving passes (strategies 1 and 2), before
    the proximity pass fills the gaps. *)
Definition reservedMap (els : list Element) (allBlockElements : list nat)
           (lines : list jsstring) : gmap Z nat :=
  let '(m1, used1) :=
    fold_left (strategy1 els allBlockElements) (indexed lines) (∅, ∅) in
  let '(m2, _, _) :=
    fold_left (strategy2 els allBlockElements) (indexed lines)
              (m1, used1, O) in
  m2.

(** [b] is [a] with decoration classes appended to its class list, and
    nothing else changed. *)
Definition tagsAdded (a b : Element) : Prop :=
  localName b = localName a
  /\ textContent b = textContent a
  /\ parentElement b = parentElement a
  /\ exists extra,
      classList b = classList a ++ extra
      /\ List.Forall (fun c => In c decorationClasses) extra.

(** What the reserving passes keep true of the map and of the set of
    used elements: a mapped element is used, no element is mapped twice,
    a used element is one of the block elements, and only non-blank
    lines of the source are mapped. *)
Definition Reserved (els : list Element) (allBlockElements : list nat)
           (entries : list (Z * jsstring))
           (m : gmap Z nat) (used : gset nat) : Prop :=
  (forall k e, m !! k = Some e -> e ∈ used)
  /\ (forall k1 k2 e, m !! k1 = Some e -> m !! k2 = Some e -> k1 = k2)
  /\ (forall e, e ∈ used -> In e allBlockElements /\ is_Some (els !! e))
  /\ (forall k e, m !! k = Some e ->
                  exists line, In (k, line) entries
                               /\ truthy (trim line) = true).

(** What the proximity pass keeps true while it walks the lines: the
    entries of the reserved map [m0] stay, every node of the map is a
    node of [m0], and, when [m0] maps some line, the lines before line
    [i] have a node. *)
Definition Filled (nlines : nat) (m0 m : gmap Z nat) (i : nat) : Prop :=
  (forall k e, m0 !! k = Some e -> m !! k = Some e)
  /\ (forall k e, m !! k = Some e -> exists k', m0 !! k' = Some e)
  /\ ((exists k0, (k0 < nlines)%nat /\ is_Some (m0 !! Z.of_nat k0)) ->
      forall j, (j < i)%nat -> is_Some (m !! Z.of_nat j)).


(** A rendered document for the examples: a heading, a blank line and a
    paragraph, with the heading inside a node wrapper. *)
Definition sampleLines : list jsstring := [js "# Title"; []; js "body"].

Definition sampleTree : list Element :=
  [ mkElement "div" [vditor_ir__node] (js "# Title") None;
    mkElement "h1" [] (js "# Title") (Some 0%nat);
    mkElement "p" [] (js "body") None ].

Definition sampleEditor : State :=
  renderedEditor ir (join sampleLines) sampleTree.


(** The re-expansion loop of the second tier, read on the rest of the
    source instead of on positions: one round drops one code unit that is
    not white space, or one whole run of white space. *)
Fixpoint advance (k : nat) (rest : jsstring) : jsstring :=
  match k with
  | O => rest
  | S k' =>
      match rest with
      | [] => []
      | c :: rest' =>
          if is_ws c then advance k' (trimStart rest') else advance k' rest'
      end
  end.


(* ================================================================== *)
(** * Document export: [escapeXml], [crc32], [createZipFile] *)
(* ================================================================== *)

(** [text.replace(/c/g, rep)] for a pattern of one literal code unit [c]
    and a replacement text without [$]. *)
Definition replaceAll (c : N) (rep : jsstring) (text : jsstring) : jsstring :=
  flat_map (fun x => if (x =? c)%N then rep else [x]) text.

Definition chAmp : N := 38%N.
Definition chLt : N := 60%N.
Definition chGt : N := 62%N.
Definition chQuot : N := 34%N.
Definition chApos : N := 39%N.

Definition escapeXml (text : jsstring) : jsstring :=
  replaceAll chApos (js "&apos;")
    (replaceAll chQuot (js "&quot;")
       (replaceAll chGt (js "&gt;")
          (replaceAll chLt (js "&lt;")
             (replaceAll chAmp (js "&amp;") text)))).

(** What the five replacements make of one code unit. *)
Definition escapeXmlUnit (c : N) : jsstring :=
  if (c =? chAmp)%N then js "&amp;"
  else if (c =? chLt)%N then js "&lt;"
  else if (c =? chGt)%N then js "&gt;"
  else if (c =? chQuot)%N then js "&quot;"
  else if (c =? chApos)%N then js "&apos;"
  else [c].

(** Reading the five entities back, used to show that nothing is lost. *)
Fixpoint unescapeXml (s : jsstring) : jsstring :=
  match s with
  | 38%N :: 97%N :: 109%N :: 112%N :: 59%N :: rest => chAmp :: unescapeXml rest
  | 38%N :: 108%N :: 116%N :: 59%N :: rest => chLt :: unescapeXml rest
  | 38%N :: 103%N :: 116%N :: 59%N :: rest => chGt :: unescapeXml rest
  | 38%N :: 113%N :: 117%N :: 111%N :: 116%N :: 59%N :: rest =>
      chQuot :: unescapeXml rest
  | 38%N :: 97%N :: 112%N :: 111%N :: 115%N :: 59%N :: rest =>
      chApos :: unescapeXml rest
  | c :: rest => c :: unescapeXml rest
  | [] => []
  end.


(** ** Numbers as the bit operators and the typed arrays see them *)

(** [ToInt32], [ToUint32] and [ToUint16] on an integral number. *)
Definition toInt32 (z : Z) : Z := (z + 2 ^ 31) mod 2 ^ 32 - 2 ^ 31.
Definition toUint32 (z : Z) : Z := z mod 2 ^ 32.
Definition toUint16 (z : Z) : Z := z mod 2 ^ 16.

(** [a ^ b] and [a & b] work on signed 32-bit integers. *)
Definition jsXor (a b : Z) : Z := toInt32 (Z.lxor (toInt32 a) (toInt32 b)).
Definition jsAnd (a b : Z) : Z := toInt32 (Z.land (toInt32 a) (toInt32 b)).

(** [a >>> n] gives an unsigned 32-bit integer. *)
Definition jsUshr (a n : Z) : Z := Z.shiftr (toUint32 a) (n mod 32).

(** The inner loop of [crc32]: [j] rounds of
    [crc = (crc >>> 1) ^ (crc & 1 ? 0xedb88320 : 0)]. *)
Fixpoint crcRounds (j : nat) (crc : Z) : Z :=
  match j with
  | O => crc
  | S j' =>
      crcRounds j'
        (jsXor (jsUshr crc 1)
               (if jsAnd crc 1 =? 0 then 0 else 0xedb88320))
  end.

Definition crc32 (data : list Z) : Z :=
  let crc :=
    fold_left (fun crc byte => crcRounds 8 (jsXor crc byte)) data 0xffffffff in
  jsUshr (jsXor crc 0xffffffff) 0.

(** [new TextEncoder().encode(s)]: UTF-8, a surrogate pair as one code
    point, a lone surrogate as U+FFFD. *)
Fixpoint utf8Encode (s : jsstring) : list Z :=
  match s with
  | [] => []
  | c :: rest =>
      let u := Z.of_N c in
      if u <? 0x80 then u :: utf8Encode rest
      else if u <? 0x800 then
        (0xC0 + u / 64) :: (0x80 + u mod 64) :: utf8Encode rest
      else if (0xD800 <=? u) && (u <? 0xDC00) then
        match rest with
        | d :: rest' =>
            let v := Z.of_N d in
            if (0xDC00 <=? v) && (v <? 0xE000) then
              let cp := 0x10000 + (u - 0xD800) * 0x400 + (v - 0xDC00) in
              (0xF0 + cp / 262144) :: (0x80 + (cp / 4096) mod 64)
              :: (0x80 + (cp / 64) mod 64) :: (0x80 + cp mod 64)
              :: utf8Encode rest'
            else 0xEF :: 0xBF :: 0xBD :: utf8Encode rest
        | [] => [0xEF; 0xBF; 0xBD]
        end
      else if (0xDC00 <=? u) && (u <? 0xE000) then
        0xEF :: 0xBF :: 0xBD :: utf8Encode rest
      else
        (0xE0 + u / 4096) :: (0x80 + (u / 64) mod 64) :: (0x80 + u mod 64)
        :: utf8Encode rest
  end.

(** ** Byte buffers *)

(** [new Uint8Array(n)] *)
Definition newUint8Array (n : nat) : list Z := repeat 0 n.

(** The [n] low bytes of [v], lowest first. *)
Fixpoint leBytes (n : nat) (v : Z) : list Z :=
  match n with
  | O => []
  | S n' => Z.land v 255 :: leBytes n' (Z.shiftr v 8)
  end.

(** [buf.set(src, off)]; all uses of the source stay inside the buffer. *)
Definition setBytes (off : nat) (src buf : list Z) : list Z :=
  firstn off buf ++ src ++ skipn (off + List.length src) buf.

(** [view.setUint16(off, v, true)] and [view.setUint32(off, v, true)] *)
Definition setUint16 (off : nat) (v : Z) (buf : list Z) : list Z :=
  setBytes off (leBytes 2 (toUint16 v)) buf.
Definition setUint32 (off : nat) (v : Z) (buf : list Z) : list Z :=
  setBytes off (leBytes 4 (toUint32 v)) buf.

(** The number that little-endian bytes stand for. *)
Fixpoint leValue (bytes : list Z) : Z :=
  match bytes with
  | [] => 0
  | b :: rest => b + 256 * leValue rest
  end.

(** ** [createZipFile] *)

Record ZipInput := mkZipInput { name : jsstring; content : jsstring }.

Definition blen (bytes : list Z) : Z := Z.of_nat (List.length bytes).

Definition localHeaderOf (crc : Z) (content nameBytes : list Z) : list Z :=
  let localHeader := newUint8Array (30 + List.length nameBytes) in
  let b := setUint32 0 0x04034b50 localHeader in
  let b := setUint16 4 20 b in
  let b := setUint16 6 0 b in
  let b := setUint16 8 0 b in
  let b := setUint16 10 0 b in
  let b := setUint16 12 0 b in
  let b := setUint32 14 crc b in
  let b := setUint32 18 (blen content) b in
  let b := setUint32 22 (blen content) b in
  let b := setUint16 26 (blen nameBytes) b in
  let b := setUint16 28 0 b in
  setBytes 30 nameBytes b.

Definition centralEntryOf (crc : Z) (content nameBytes : list Z) (offset : Z)
  : list Z :=
  let centralEntry := newUint8Array (46 + List.length nameBytes) in
  let b := setUint32 0 0x02014b50 centralEntry in
  let b := setUint16 4 20 b in
  let b := setUint16 6 20 b in
  let b := setUint16 8 0 b in
  let b := setUint16 10 0 b in
  let b := setUint16 12 0 b in
  let b := setUint16 14 0 b in
  let b := setUint32 16 crc b in
  let b := setUint32 20 (blen content) b in
  let b := setUint32 24 (blen content) b in
  let b := setUint16 28 (blen nameBytes) b in
  let b := setUint16 30 0 b in
  let b := setUint16 32 0 b in
  let b := setUint16 34 0 b in
  let b := setUint16 36 0 b in
  let b := setUint32 38 0 b in
  let b := setUint32 42 offset b in
  setBytes 46 nameBytes b.

(** The variables of the loop over the files. *)
Record ZipLoop := mkZipLoop {
  localHeaders : list (list Z);
  fileData : list (list Z);
  centralDirEntries : list (list Z);
  offset : Z
}.

(** One round of [for (const file of files)]. *)
Definition zipFile (acc : ZipLoop) (file : ZipInput) : ZipLoop :=
  let content := utf8Encode (content file) in
  let nameBytes := utf8Encode (name file) in
  let crc := crc32 content in
  let localHeader := localHeaderOf crc content nameBytes in
  let centralEntry := centralEntryOf crc content nameBytes (offset acc) in
  {| localHeaders := localHeaders acc ++ [localHeader];
     fileData := fileData acc ++ [content];
     centralDirEntries := centralDirEntries acc ++ [centralEntry];
     offset := offset acc + blen localHeader + blen content |}.

Definition endRecordOf (nfiles centralDirSize centralDirStart : Z) : list Z :=
  let endRecord := newUint8Array 22 in
  let b := setUint32 0 0x06054b50 endRecord in
  let b := setUint16 4 0 b in
  let b := setUint16 6 0 b in
  let b := setUint16 8 nfiles b in
  let b := setUint16 10 nfiles b in
  let b := setUint32 12 centralDirSize b in
  let b := setUint32 16 centralDirStart b in
  setUint16 20 0 b.

(** The copy loop: every part is written behind the one before. *)
Definition copyParts (parts : list (list Z)) (totalLength : nat) : list Z :=
  fst (fold_left
         (fun '(result, resultOffset) part =>
            (setBytes resultOffset part result,
             (resultOffset + List.length part)%nat))
         parts (newUint8Array totalLength, O)).

(** The bytes of the [Blob] that [createZipFile] returns. *)
Definition createZipFile (files : list ZipInput) : list Z :=
  let loop := fold_left zipFile files (mkZipLoop [] [] [] 0) in
  let centralDirStart := offset loop in
  let centralDirSize :=
    fold_left (fun sum e => sum + blen e) (centralDirEntries loop) 0 in
  let endRecord :=
    endRecordOf (Z.of_nat (List.length files)) centralDirSize
                centralDirStart in
  let parts :=
    localHeaders loop ++ fileData loop ++ centralDirEntries loop
    ++ [endRecord] in
  let totalLength :=
    fold_left (fun sum part => (sum + List.length part)%nat) parts O in
  copyParts parts totalLength.


(** ** The archive in closed form, for the statements about its layout *)

Definition nameBytesOf (file : ZipInput) : list Z := utf8Encode (name file).
Definition contentBytesOf (file : ZipInput) : list Z :=
  utf8Encode (content file).

(** The local header that the loop builds for a file. *)
Definition headerBytesOf (file : ZipInput) : list Z :=
  localHeaderOf (crc32 (contentBytesOf file)) (contentBytesOf file)
                (nameBytesOf file).

(** The directory entries of the files when the first one is recorded at
    [off]: the loop adds the length of header and content after each. *)
Fixpoint entriesFrom (off : Z) (files : list ZipInput) : list (list Z) :=
  match files with
  | [] => []
  | file :: rest =>
      centralEntryOf (crc32 (contentBytesOf file)) (contentBytesOf file)
                     (nameBytesOf file) off
      :: entriesFrom (off + blen (headerBytesOf file)
                      + blen (contentBytesOf file)) rest
  end.

(** The sizes of the three regions of the archive. *)
Fixpoint headersSize (files : list ZipInput) : nat :=
  match files with
  | [] => O
  | file :: rest => (30 + List.length (nameBytesOf file) + headersSize rest)%nat
  end.

Fixpoint contentsSize (files : list ZipInput) : nat :=
  match files with
  | [] => O
  | file :: rest => (List.length (contentBytesOf file) + contentsSize rest)%nat
  end.

Fixpoint directorySize (files : list ZipInput) : nat :=
  match files with
  | [] => O
  | file :: rest =>
      (46 + List.length (nameBytesOf file) + directorySize rest)%nat
  end.

(* ================================================================== *)
(** * Properties *)
(* ================================================================== *)

(* ================================================================== *)
(** * Line indexer *)
(* ================================================================== *)

Section LineIndexer.

(** Splitting never yields an empty list of lines. *)
Lemma split_nonempty (s : jsstring) : split s <> [].
Proof.
  destruct s as [|c s]; simpl; [discriminate|].
  destruct (c =? LF)%N; [discriminate|].
  destruct (split s); discriminate.
Qed.

(** No segment of a split contains a line feed. *)
Lemma split_no_lf (s : jsstring) :
  Forall (fun l => ~ In LF l) (split s).
Proof.
  induction s as [|c s IH]; simpl.
  - constructor; [intros []|constructor].
  - destruct (c =? LF)%N eqn:E.
    + constructor; [intros []|exact IH].
    + destruct (split s) as [|l ls].
      * constructor; [|constructor].
        intros [H|[]]. subst c. discriminate E.
      * inversion IH as [|? ? Hl Hls]; subst.
        constructor; [|exact Hls].
        intros [H|H]; [subst c; discriminate E|contradiction].
Qed.

Lemma join_cons_cons (l m : jsstring) (ls : list jsstring) :
  join (l :: m :: ls) = l ++ LF :: join (m :: ls).
Proof. reflexivity. Qed.

(** C7: for every text [T], joining [split T] with a single line feed
    reproduces [T] exactly; no trailing empty segment is lost, also when
    [T] ends in a line feed. *)
Theorem join_split (T : jsstring) : join (split T) = T.
Proof.
  induction T as [|c T IH]; [reflexivity|].
  simpl split.
  destruct (c =? LF)%N eqn:E.
  - apply N.eqb_eq in E. subst c.
    pose proof (split_nonempty T) as Hne.
    destruct (split T) as [|l ls]; [contradiction|].
    rewrite join_cons_cons, IH. reflexivity.
  - pose proof (split_nonempty T) as Hne.
    destruct (split T) as [|l ls]; [contradiction|].
    destruct ls as [|m ls].
    + simpl in *. now rewrite IH.
    + rewrite <- IH. reflexivity.
Qed.

(** The lines of a text span the text and one more position. *)
Lemma span_split (s : jsstring) : span (split s) = len s + 1.
Proof.
  induction s as [|c s IH]; [reflexivity|].
  simpl split. unfold len in *. simpl List.length.
  pose proof (split_nonempty s) as Hne.
  destruct (c =? LF)%N.
  - simpl. unfold len. simpl. lia.
  - destruct (split s) as [|l ls]; [contradiction|].
    simpl in *. unfold len in *. simpl. lia.
Qed.

Lemma len_nonneg (s : jsstring) : 0 <= len s.
Proof. unfold len. lia. Qed.

Lemma span_nonneg (lines : list jsstring) : 0 <= span lines.
Proof.
  induction lines as [|l ls IH]; simpl; [lia|].
  pose proof (len_nonneg l). lia.
Qed.

(** The offset loop finds the line and column of every offset inside
    the span of the lines it is given. *)
Lemma lineOfOffset_spec (lines : list jsstring) :
  forall offset charCount i dflt,
    charCount <= offset < charCount + span lines ->
    exists (k : nat) (c : Z),
      lineOfOffset lines offset charCount i dflt = (i + Z.of_nat k, c)
      /\ (k < List.length lines)%nat
      /\ 0 <= c <= len (List.nth k lines [])
      /\ charCount + lineColToOffset lines k c = offset.
Proof.
  induction lines as [|l ls IH]; intros offset charCount i dflt H.
  - simpl in H. lia.
  - simpl lineOfOffset. simpl span in H.
    destruct (charCount + (len l + 1) >? offset) eqn:E.
    + exists O, (offset - charCount).
      apply Z.gtb_lt in E. simpl.
      split; [f_equal; lia|]. repeat split; lia.
    + assert (Hle : charCount + (len l + 1) <= offset).
      { destruct (Z.gtb_spec (charCount + (len l + 1)) offset); [discriminate|lia]. }
      destruct (IH offset (charCount + (len l + 1)) (i + 1) dflt)
        as (k & c & Heq & Hk & Hc & Hoff); [lia|].
      exists (S k), c. rewrite Heq. simpl.
      split; [f_equal; lia|]. repeat split; lia.
Qed.

Example split_trailing_newline :
  split (js "ab" ++ [LF]) = [js "ab"; []].
Proof. reflexivity. Qed.

End LineIndexer.

(* ================================================================== *)
(** * Selection resolver *)
(* ================================================================== *)

Section SubstringSearch.

Lemma startsWith_firstn (t : jsstring) :
  forall s, startsWith s t = true <-> firstn (List.length t) s = t.
Proof.
  induction t as [|b t IH]; intros s; simpl.
  - split; reflexivity.
  - destruct s as [|a s]; simpl.
    + split; discriminate.
    + rewrite andb_true_iff, N.eqb_eq, IH. split.
      * intros [-> ->]. reflexivity.
      * intros H. injection H as -> H. split; [reflexivity|exact H].
Qed.

Lemma startsWith_length (t : jsstring) :
  forall s, startsWith s t = true -> (List.length t <= List.length s)%nat.
Proof.
  induction t as [|b t IH]; intros s H; simpl in *; [lia|].
  destruct s as [|a s]; [discriminate|].
  apply andb_true_iff in H as [_ H]. apply IH in H. simpl. lia.
Qed.

(** The search returns [-1] or the least position of an occurrence. *)
Lemma indexOf_from_spec (t : jsstring) :
  forall s i,
    indexOf_from s t i = -1
    \/ exists k : nat,
        indexOf_from s t i = i + Z.of_nat k
        /\ startsWith (skipn k s) t = true
        /\ (forall j, (j < k)%nat -> startsWith (skipn j s) t = false)
        /\ (k + List.length t <= List.length s)%nat.
Proof.
  induction s as [|a s IH]; intros i; simpl indexOf_from.
  - destruct (startsWith [] t) eqn:E; [|left; reflexivity].
    right. exists O. repeat split; try (simpl; lia).
    + exact E.
    + apply startsWith_length in E. simpl in *. lia.
  - destruct (startsWith (a :: s) t) eqn:E.
    + right. exists O. repeat split; try (simpl; lia).
      * exact E.
      * apply startsWith_length in E. simpl in *. lia.
    + destruct (IH (i + 1)) as [H | (k & Hk & Hs & Hmin & Hlen)];
        [left; exact H|].
      right. exists (S k). repeat split.
      * rewrite Hk. lia.
      * exact Hs.
      * intros [|j] Hj; [exact E|]. simpl. apply Hmin. lia.
      * simpl. lia.
Qed.

Lemma indexOf_from_ge (t : jsstring) :
  forall s i, 0 <= i -> indexOf_from s t i = -1 \/ i <= indexOf_from s t i.
Proof.
  intros s i Hi.
  destruct (indexOf_from_spec t s i) as [H | (k & Hk & _)]; [now left|].
  right. lia.
Qed.

(** When the search fails, the text occurs nowhere. *)
Lemma indexOf_from_none (t : jsstring) :
  forall s i, 0 <= i -> indexOf_from s t i = -1 ->
              forall k, startsWith (skipn k s) t = false.
Proof.
  induction s as [|a s IH]; intros i Hi H k; simpl in H.
  - destruct (startsWith [] t) eqn:E; [lia|].
    destruct k; exact E.
  - destruct (startsWith (a :: s) t) eqn:E; [lia|].
    destruct k as [|k]; [exact E|].
    simpl. apply (IH (i + 1)); [lia|exact H].
Qed.

End SubstringSearch.

Section Resolver.

Lemma truthy_nonempty (s : jsstring) : s <> [] -> truthy s = true.
Proof. destruct s; [contradiction|reflexivity]. Qed.

(** No line of the source passes the test of the fallback. *)
Lemma firstLineFallback_none (selectedText first : jsstring) (nlines : Z) :
  forall lines i,
    Forall (fun l => includes l first = false) lines ->
    firstLineFallback selectedText first nlines lines i = None.
Proof.
  induction lines as [|l ls IH]; intros i H; simpl; [reflexivity|].
  inversion H as [|? ? Hl Hls]; subst.
  rewrite Hl. apply IH. exact Hls.
Qed.

(** C5: a non-empty selection that none of the three tiers finds (no
    verbatim occurrence, no occurrence of the normalized selection in the
    normalized source, no source line that contains the trimmed first
    line of the selection) gets the explicit no-match result [None]; the
    resolver is a total function, so it returns on every input.  The
    document "abc" with the selection "xyz" is such a case. *)
Theorem no_match_is_explicit :
  (forall (st : State) (selectedText : jsstring),
      selectedText <> [] ->
      indexOf (value st) selectedText = -1 ->
      indexOf (collapse_ws (value st)) (trim (collapse_ws selectedText))
      = -1 ->
      Forall (fun l =>
                includes l (trim (List.hd [] (split selectedText))) = false)
             (split (value st)) ->
      getSelectionLineRange st selectedText = None)
  /\ getSelectionLineRange (exampleEditor (js "abc")) (js "xyz") = None.
Proof.
  split; [|reflexivity].
  intros st sel Hne H1 H2 H3.
  unfold getSelectionLineRange.
  destruct (negb (vditor st) || negb (truthy sel)); [reflexivity|].
  rewrite H1. simpl (-1 =? -1).
  unfold normalizedMatch. rewrite H2. simpl.
  apply firstLineFallback_none. exact H3.
Qed.

Lemma no_match_is_explicit_witness :
  getSelectionLineRange
    (exampleEditor (js "one" ++ LF :: js "two")) (js "six") = None.
Proof.
  apply (proj1 no_match_is_explicit).
  - discriminate.
  - reflexivity.
  - reflexivity.
  - repeat constructor.
Defined.

(** C6: the first tier maps the first verbatim occurrence of the selected
    text to 0-indexed line and character coordinates.  When the selection
    occurs in the buffer, the resolver returns a range whose start is the
    line and column of the least offset [m] at which it occurs and whose
    end is the line and column of [m] plus the length of the selection;
    for the document "a\nb\nc" and the selection "b" the range is
    [{startLine:1, startChar:0, endLine:1, endChar:1}]. *)
Theorem exact_match_coordinates :
  (forall (st : State) (selectedText : jsstring),
      vditor st = true ->
      selectedText <> [] ->
      indexOf (value st) selectedText <> -1 ->
      let m := indexOf (value st) selectedText in
      let lines := split (value st) in
      exists info,
        getSelectionLineRange st selectedText = Some info
        /\ text info = selectedText
        /\ occursAt (value st) selectedText m
        /\ (forall j, 0 <= j < m -> ~ occursAt (value st) selectedText j)
        /\ 0 <= startLine info < Z.of_nat (List.length lines)
        /\ 0 <= startChar info
           <= len (List.nth (Z.to_nat (startLine info)) lines [])
        /\ lineColToOffset lines (Z.to_nat (startLine info))
                           (startChar info) = m
        /\ 0 <= endLine info < Z.of_nat (List.length lines)
        /\ 0 <= endChar info
           <= len (List.nth (Z.to_nat (endLine info)) lines [])
        /\ lineColToOffset lines (Z.to_nat (endLine info)) (endChar info)
           = m + len selectedText)
  /\ getSelectionLineRange
       (exampleEditor (js "a" ++ LF :: js "b" ++ LF :: js "c")) (js "b")
     = Some {| text := js "b"; startLine := 1; endLine := 1;
               startChar := 0; endChar := 1 |}.
Proof.
  split; [|reflexivity].
  intros st sel Hv Hne Hm m lines.
  destruct (indexOf_from_spec sel (value st) 0)
    as [H | (k & Hk & Hs & Hmin & Hlen)]; [contradiction|].
  fold (indexOf (value st) sel) in Hk. fold m in Hk.
  assert (Hmk : m = Z.of_nat k) by lia.
  pose proof (span_split (value st)) as Hspan. fold lines in Hspan.
  assert (Hlen' : m + len sel <= len (value st)) by (unfold len; lia).
  pose proof (len_nonneg sel) as Hsel.
  destruct (lineOfOffset_spec lines m 0 0 (0, 0))
    as (k1 & c1 & E1 & Hk1 & Hc1 & Ho1); [lia|].
  destruct (lineOfOffset_spec lines (m + len sel) 0 0
                              (0 + Z.of_nat k1, c1 + len sel))
    as (k2 & c2 & E2 & Hk2 & Hc2 & Ho2); [lia|].
  exists {| text := sel; startLine := Z.of_nat k1; endLine := Z.of_nat k2;
            startChar := c1; endChar := c2 |}.
  split.
  { unfold getSelectionLineRange. rewrite Hv, (truthy_nonempty sel Hne).
    simpl negb. simpl orb. cbv iota.
    fold m. fold lines.
    destruct (m =? -1) eqn:Em; [apply Z.eqb_eq in Em; lia|].
    rewrite Em, E1. simpl fst in *. rewrite E2.
    reflexivity. }
  simpl. rewrite !Nat2Z.id.
  split; [reflexivity|].
  split.
  { split; [lia|]. rewrite Hmk, Nat2Z.id.
    apply startsWith_firstn. exact Hs. }
  split.
  { intros j Hj [_ Hocc].
    apply startsWith_firstn in Hocc.
    rewrite Hmin in Hocc; [discriminate|lia]. }
  repeat split; lia.
Qed.

Lemma exact_match_coordinates_witness :
  exists info,
    getSelectionLineRange
      (exampleEditor (js "ab" ++ LF :: js "cd")) (js "cd") = Some info
    /\ startLine info = 1 /\ startChar info = 0
    /\ endLine info = 1 /\ endChar info = 2.
Proof.
  destruct (proj1 exact_match_coordinates
              (exampleEditor (js "ab" ++ LF :: js "cd")) (js "cd"))
    as (info & Hinfo & _).
  - reflexivity.
  - discriminate.
  - vm_compute. discriminate.
  - exists info. split; [exact Hinfo|].
    vm_compute in Hinfo. injection Hinfo as <-. repeat split.
Defined.

End Resolver.

(* ================================================================== *)
(** * Decoration controller: [clearDecorations] *)
(* ================================================================== *)

Section Clear.

Lemma contains_remove (c : string) (cs : list string) (el : Element) :
  In c cs -> contains c (remove cs el) = false.
Proof.
  intros Hin. unfold contains, remove. simpl.
  induction (classList el) as [|x l IH]; simpl; [reflexivity|].
  destruct (existsb (String.eqb x) cs) eqn:E; simpl; [exact IH|].
  rewrite IH, orb_false_r.
  destruct (String.eqb c x) eqn:Ecx; [|reflexivity].
  apply String.eqb_eq in Ecx. subst x.
  assert (existsb (String.eqb c) cs = true) as Hex.
  { apply existsb_exists. exists c. split; [exact Hin|apply String.eqb_refl]. }
  congruence.
Qed.

(** After the removal of the three classes an element matches the
    selector of the decorated elements no longer. *)
Lemma undecorate_clean (el : Element) :
  decoratedSelector (undecorate el) = false.
Proof.
  unfold undecorate.
  destruct (decoratedSelector el) eqn:E; [|exact E].
  unfold decoratedSelector.
  rewrite !contains_remove; [reflexivity| | |];
    unfold decorationClasses; simpl; auto.
Qed.

Lemma undecorate_idem (el : Element) :
  undecorate (undecorate el) = undecorate el.
Proof.
  unfold undecorate at 1. now rewrite undecorate_clean.
Qed.

Lemma map_undecorate_idem (els : list Element) :
  List.map undecorate (List.map undecorate els) = List.map undecorate els.
Proof.
  rewrite List.map_map. apply List.map_ext. intros. apply undecorate_idem.
Qed.

Lemma querySelectorAll_from_nil (sel : Element -> bool) (els : list Element) :
  forall i, querySelectorAll_from sel els i = [] ->
            Forall (fun el => sel el = false) els.
Proof.
  induction els as [|el rest IH]; intros i H; [constructor|].
  simpl in H. destruct (sel el) eqn:E; [discriminate|].
  constructor; [exact E|]. apply (IH (S i)). exact H.
Qed.

Lemma querySelectorAll_from_none (sel : Element -> bool) (els : list Element) :
  forall i, Forall (fun el => sel el = false) els ->
            querySelectorAll_from sel els i = [].
Proof.
  induction els as [|el rest IH]; intros i H; [reflexivity|].
  inversion H as [|? ? Hel Hrest]; subst. simpl. rewrite Hel.
  apply IH. exact Hrest.
Qed.

(** Where nothing is tagged, the loop of [clearDecorations] changes
    nothing. *)
Lemma map_undecorate_untagged (els : list Element) :
  querySelectorAll decoratedSelector els = [] ->
  List.map undecorate els = els.
Proof.
  intros H. apply querySelectorAll_from_nil in H.
  induction H as [|el rest Hel _ IH]; [reflexivity|].
  simpl. rewrite IH. unfold undecorate. now rewrite Hel.
Qed.

(** After [clearDecorations] on a present tree no node is tagged. *)
Lemma querySelectorAll_undecorate (els : list Element) :
  querySelectorAll decoratedSelector (List.map undecorate els) = [].
Proof.
  apply querySelectorAll_from_none.
  apply List.Forall_forall. intros el Hin.
  apply List.in_map_iff in Hin as (el0 & <- & _). apply undecorate_clean.
Qed.

(** With the editor and the tree present, [clearDecorations] leaves the
    decoration state idle. *)
Lemma clearDecorations_idle (st : State) (els : list Element) :
  vditor st = true -> irContainer st = Some els ->
  Idle (clearDecorations st).
Proof.
  intros Hv Hc. pose proof (querySelectorAll_undecorate els) as Hq.
  destruct st as [v cm val c pm tb n ts]; simpl in *. subst v c.
  unfold clearDecorations, Idle, taggedNodes, affordanceVisible,
    hideFloatingToolbar; simpl.
  destruct tb; simpl; auto.
Qed.

(** C10: when the editor instance or the rendered container is absent,
    [clearDecorations] returns early and leaves the whole state as it
    is: no tag is removed, the saved mode is not reset and the
    affordance keeps its visibility. *)
Theorem clearDecorations_without_view (st : State) :
  vditor st = false \/ irContainer st = None ->
  clearDecorations st = st.
Proof.
  intros [H | H]; unfold clearDecorations.
  - rewrite H. reflexivity.
  - rewrite H. destruct (negb (vditor st)); reflexivity.
Qed.

Lemma clearDecorations_without_view_witness :
  clearDecorations
    (mkState true (Some ir) (js "a") None (Some sv) (Some true) 0 [])
  = mkState true (Some ir) (js "a") None (Some sv) (Some true) 0 [].
Proof.
  apply clearDecorations_without_view. right. reflexivity.
Defined.

(** C8: calling [clearDecorations] twice in a row gives the state that
    one call gives (node tags, saved mode and affordance included), and
    on an idle state, where nothing is applied, the call changes
    nothing. *)
Theorem clearDecorations_idempotent :
  (forall st, clearDecorations (clearDecorations st) = clearDecorations st)
  /\ (forall st, Idle st -> clearDecorations st = st).
Proof.
  split.
  - intros [v cm val c pm tb n ts].
    destruct v; [|reflexivity].
    destruct c as [els|]; [|reflexivity].
    unfold clearDecorations, hideFloatingToolbar; simpl.
    destruct tb; simpl; rewrite map_undecorate_idem; reflexivity.
  - intros st (Htag & Hmode & Hvis).
    unfold clearDecorations.
    destruct (negb (vditor st)); [reflexivity|].
    unfold taggedNodes in Htag.
    destruct st as [v cm val [els|] pm tb n ts]; simpl in *; [|reflexivity].
    rewrite (map_undecorate_untagged els Htag). subst pm.
    unfold hideFloatingToolbar, affordanceVisible in *. simpl in *.
    destruct tb as [b|]; simpl; [subst b|]; reflexivity.
Qed.

Lemma clearDecorations_idempotent_witness :
  clearDecorations (renderedEditor ir (js "a") [paragraph "a"])
  = renderedEditor ir (js "a") [paragraph "a"].
Proof.
  apply (proj2 clearDecorations_idempotent).
  repeat split.
Defined.

End Clear.

(* ================================================================== *)
(** * Decoration controller: the tagging pass *)
(* ================================================================== *)

Section Tagging.

Variable lines : list jsstring.
Variable lineToElementMap : gmap Z nat.

(** A line number outside the lines takes the early return. *)
Lemma applyDecorationToLine_out_of_range
      (lineNum : Z) (className : string) (els : list Element) :
  lineNum < 0 \/ Z.of_nat (List.length lines) <= lineNum ->
  applyDecorationToLine lines lineToElementMap lineNum className els
  = Some els.
Proof.
  intros H. unfold applyDecorationToLine.
  destruct (lineNum <? 0) eqn:E1; [reflexivity|].
  destruct (lineNum >=? Z.of_nat (List.length lines)) eqn:E2; [reflexivity|].
  apply Z.ltb_ge in E1.
  rewrite Z.geb_leb in E2. apply Z.leb_gt in E2. lia.
Qed.

(** With its guard, [applyDecorationToLine] raises no error on any line
    number. *)
Lemma applyDecorationToLine_total
      (lineNum : Z) (className : string) (els : list Element) :
  exists els',
    applyDecorationToLine lines lineToElementMap lineNum className els
    = Some els'.
Proof.
  unfold applyDecorationToLine.
  destruct (lineNum <? 0) eqn:E1; [eauto|].
  destruct (lineNum >=? Z.of_nat (List.length lines)) eqn:E2; [eauto|].
  simpl.
  destruct (lineToElementMap !! lineNum) as [element|].
  - repeat match goal with
           | |- context [match ?x with _ => _ end] => destruct x
           end; eauto.
  - apply Z.ltb_ge in E1.
    rewrite Z.geb_leb in E2. apply Z.leb_gt in E2.
    destruct (nth_error lines (Z.to_nat lineNum)) as [line|] eqn:En.
    + repeat match goal with
             | |- context [match ?x with _ => _ end] => destruct x
             end; eauto.
    + apply nth_error_None in En. lia.
Qed.

Lemma forEachLine_ok (className : string) (indices : list Z) :
  forall els,
    snd (forEachLine lines lineToElementMap className indices els) = true.
Proof.
  induction indices as [|n rest IH]; intros els; simpl; [reflexivity|].
  destruct (applyDecorationToLine_total n className els) as [els' ->].
  apply IH.
Qed.

Lemma decorate_ok (d : Decorations) (els : list Element) :
  snd (decorate lines lineToElementMap d els) = true.
Proof.
  unfold decorate.
  pose proof (forEachLine_ok cline_added_line (added d) els) as H1.
  destruct (forEachLine lines lineToElementMap cline_added_line
                        (added d) els) as [els1 ok1].
  simpl in H1. subst ok1.
  pose proof (forEachLine_ok cline_deleted_line (deleted d) els1) as H2.
  destruct (forEachLine lines lineToElementMap cline_deleted_line
                        (deleted d) els1) as [els2 ok2].
  simpl in H2. subst ok2.
  apply forEachLine_ok.
Qed.

(** A loop over line numbers does what the loop over the line numbers
    in range does. *)
Lemma forEachLine_inRange (className : string) (indices : list Z) :
  forall els,
    forEachLine lines lineToElementMap className indices els
    = forEachLine lines lineToElementMap className
                  (List.filter (inRange (List.length lines)) indices) els.
Proof.
  induction indices as [|n rest IH]; intros els; [reflexivity|].
  simpl List.filter. unfold inRange at 1.
  destruct ((n <? 0) || (n >=? Z.of_nat (List.length lines))) eqn:E; simpl.
  - rewrite applyDecorationToLine_out_of_range; [apply IH|].
    apply orb_true_iff in E as [E|E].
    + apply Z.ltb_lt in E. lia.
    + rewrite Z.geb_leb in E. apply Z.leb_le in E. lia.
  - destruct (applyDecorationToLine lines lineToElementMap n className els);
      [apply IH|reflexivity].
Qed.

Lemma decorate_inRange (d : Decorations) (els : list Element) :
  decorate lines lineToElementMap d els
  = decorate lines lineToElementMap (inRangeOnly (List.length lines) d) els.
Proof.
  unfold decorate, inRangeOnly. simpl.
  rewrite <- (forEachLine_inRange cline_added_line (added d) els).
  destruct (forEachLine lines lineToElementMap cline_added_line
                        (added d) els) as [els1 ok1].
  destruct ok1; [|reflexivity].
  rewrite <- (forEachLine_inRange cline_deleted_line (deleted d) els1).
  destruct (forEachLine lines lineToElementMap cline_deleted_line
                        (deleted d) els1) as [els2 ok2].
  destruct ok2; [|reflexivity].
  apply forEachLine_inRange.
Qed.

End Tagging.

Section TagPass.

(** The tree after a tagging pass that finds the editor and the tree. *)
Lemma tagPass_tree (d : Decorations) (retry : nat) (st : State)
      (els : list Element) :
  vditor st = true -> irContainer st = Some els ->
  irContainer (tagPass d retry st)
  = Some (fst (decorate (split (value st))
                        (buildLineToElementMap
                           els (querySelectorAll blockSelector els)
                           (split (value st)))
                        d els)).
Proof.
  intros Hv Hc. unfold tagPass. rewrite Hc, Hv.
  destruct (decorate _ _ d els) as [els' ok]. simpl.
  destruct (ok && _); reflexivity.
Qed.

(** C9: in a tagging pass with the rendered tree present, a line number
    of the change set that is negative or not less than the number of
    source lines is skipped by [applyDecorationToLine]: the step returns
    at once, leaves every element as it is and raises no error; so the
    pass tags what the pass over the line numbers in range tags. *)
Theorem out_of_range_lines_skipped :
  (forall lines lineToElementMap (lineNum : Z) className els,
      lineNum < 0 \/ Z.of_nat (List.length lines) <= lineNum ->
      applyDecorationToLine lines lineToElementMap lineNum className els
      = Some els)
  /\ (forall d retry st els,
         vditor st = true -> irContainer st = Some els ->
         irContainer (tagPass d retry st)
         = irContainer
             (tagPass (inRangeOnly (List.length (split (value st))) d)
                      retry st)).
Proof.
  split.
  - intros. now apply applyDecorationToLine_out_of_range.
  - intros d retry st els Hv Hc.
    rewrite (tagPass_tree d retry st els Hv Hc).
    rewrite (tagPass_tree _ retry st els Hv Hc).
    now rewrite <- decorate_inRange.
Qed.

Lemma out_of_range_lines_skipped_witness :
  applyDecorationToLine [js "a"; js "b"] (<[0 := 0%nat]> ∅) 2
                        cline_added_line [paragraph "a"]
  = Some [paragraph "a"]
  /\ applyDecorationToLine [js "a"; js "b"] (<[0 := 0%nat]> ∅) (-1)
                           cline_added_line [paragraph "a"]
     = Some [paragraph "a"].
Proof.
  split; apply (proj1 out_of_range_lines_skipped); simpl; lia.
Defined.

End TagPass.

(* ================================================================== *)
(** * Decoration controller: [applyDecorationsToVditor] *)
(* ================================================================== *)

Section Apply.

(** With the editor and the tree present, a call clears, captures the
    mode of that moment and schedules its tagging pass. *)
Lemma applyDecorationsToVditor_present
      (d : Decorations) (retry : nat) (st : State) (els : list Element) :
  vditor st = true -> irContainer st = Some els ->
  applyDecorationsToVditor (Some d) retry st
  = mkState true (currentMode st) (value st)
            (Some (List.map undecorate els))
            (Some (modeOrIr st))
            (match floatingToolbar st with
             | Some _ => Some false
             | None => None
             end)
            (now st)
            (timers st ++ [(now st + 200, TagPass d retry)]).
Proof.
  intros Hv Hc. destruct st as [v cm val c pm tb n ts]; simpl in *.
  subst v c. unfold applyDecorationsToVditor, clearDecorations,
               hideFloatingToolbar, modeOrIr; simpl.
  destruct tb; reflexivity.
Qed.

(** Without the tree the clearing returns early, so a mode saved before
    is kept. *)
Lemma applyDecorationsToVditor_absent
      (d : Decorations) (retry : nat) (st : State) :
  vditor st = true -> irContainer st = None ->
  applyDecorationsToVditor (Some d) retry st
  = mkState true (currentMode st) (value st) None
            (Some (match previousMode st with
                   | Some m => m
                   | None => modeOrIr st
                   end))
            (floatingToolbar st) (now st)
            (timers st ++ [(now st + 200, TagPass d retry)]).
Proof.
  intros Hv Hc. destruct st as [v cm val c pm tb n ts]; simpl in *.
  subst v c. unfold applyDecorationsToVditor, clearDecorations,
               modeOrIr; simpl.
  destruct pm; reflexivity.
Qed.

Lemma touched_nonempty (d : Decorations) :
  (0 <? size (touched d))%nat = true
  <-> added d ++ deleted d ++ modified d <> [].
Proof.
  unfold touched.
  destruct (added d ++ deleted d ++ modified d) as [|n l].
  - split; [intros H; vm_compute in H; discriminate|congruence].
  - split; [discriminate|]. intros _.
    apply Nat.ltb_lt.
    assert (size (list_to_set (n :: l) : gset Z) <> 0%nat); [|lia].
    apply size_non_empty_iff. set_solver.
Qed.

(** What a tagging pass that finds the tree does to the affordance. *)
Lemma tagPass_affordance (d : Decorations) (retry : nat) (st : State)
      (els : list Element) :
  vditor st = true -> irContainer st = Some els ->
  affordanceVisible (tagPass d retry st)
  = (0 <? size (touched d))%nat || affordanceVisible st.
Proof.
  intros Hv Hc. unfold tagPass. rewrite Hc, Hv.
  pose proof (decorate_ok (split (value st))
                (buildLineToElementMap
                   els (querySelectorAll blockSelector els)
                   (split (value st))) d els) as Hok.
  destruct (decorate _ _ d els) as [els' ok]. simpl in Hok. subst ok.
  simpl. destruct (0 <? size (touched d))%nat; reflexivity.
Qed.

(** A tagging pass for an empty change set changes neither the tree
    nor the affordance. *)
Lemma tagPass_empty (d : Decorations) (retry : nat) (st : State) :
  added d = [] -> deleted d = [] -> modified d = [] ->
  irContainer (tagPass d retry st) = irContainer st
  /\ affordanceVisible (tagPass d retry st) = affordanceVisible st.
Proof.
  intros Ha Hd Hm. unfold tagPass, decorate, touched.
  rewrite Ha, Hd, Hm. simpl.
  destruct st as [v cm val [els|] pm tb n ts]; simpl;
    destruct v; simpl; try destruct (retry <? 5)%nat; simpl; auto.
Qed.

(** C4, as the code has it: at the end of a tagging pass that finds the
    editor and the tree, the affordance is visible when the change set
    holds at least one line number, tagged or not, or when it was
    visible before; so after [applyDecorationsToVditor] and its tagging
    pass it is visible exactly when the change set is not empty. *)
Theorem affordance_follows_change_set :
  (forall d retry st els,
      vditor st = true -> irContainer st = Some els ->
      affordanceVisible (tagPass d retry st)
      = (0 <? size (touched d))%nat || affordanceVisible st)
  /\ (forall d retry st els,
         vditor st = true -> irContainer st = Some els ->
         affordanceVisible
           (tagPass d retry (applyDecorationsToVditor (Some d) retry st))
         = true
         <-> added d ++ deleted d ++ modified d <> []).
Proof.
  split; [exact tagPass_affordance|].
  intros d retry st els Hv Hc.
  rewrite (applyDecorationsToVditor_present d retry st els Hv Hc).
  rewrite (tagPass_affordance d retry _ (List.map undecorate els));
    [|reflexivity|reflexivity].
  rewrite <- touched_nonempty.
  unfold affordanceVisible. simpl.
  destruct (floatingToolbar st); rewrite orb_false_r; reflexivity.
Qed.

Lemma affordance_follows_change_set_witness :
  affordanceVisible
    (tagPass (mkDecorations [7] [] []) 0
             (renderedEditor ir (js "a") [paragraph "a"]))
  = true.
Proof.
  rewrite (proj1 affordance_follows_change_set _ _ _ [paragraph "a"]);
    reflexivity.
Defined.

(** C4 as stated fails: the change set names line 7 of a one-line
    document, the tagging pass tags no node, and the affordance is made
    visible all the same. *)
Lemma affordance_without_tag_counterexample :
  let st := tagPass (mkDecorations [7] [] []) 0
                    (applyDecorationsToVditor
                       (Some (mkDecorations [7] [] [])) 0
                       (renderedEditor ir (js "a") [paragraph "a"])) in
  taggedNodes st = [] /\ affordanceVisible st = true.
Proof. vm_compute. split; reflexivity. Qed.

(** C3, as the code has it: a change set whose three sets are empty is
    not skipped.  With the editor present the call clears first (on a
    present tree every tag goes, the affordance is hidden), a mode is
    saved afterwards (captured anew when none was saved, or when the
    clearing has just reset it) and the tagging pass is scheduled; that
    pass, whenever it runs, tags no node and leaves the affordance as it
    is. *)
Theorem empty_change_set_apply (d : Decorations) (retry : nat) (st : State) :
  added d = [] -> deleted d = [] -> modified d = [] ->
  vditor st = true ->
  let st1 := applyDecorationsToVditor (Some d) retry st in
  previousMode st1 <> None
  /\ (previousMode st = None -> previousMode st1 = Some (modeOrIr st))
  /\ (forall els, irContainer st = Some els ->
                  irContainer st1 = Some (List.map undecorate els)
                  /\ previousMode st1 = Some (modeOrIr st)
                  /\ affordanceVisible st1 = false)
  /\ timers st1 = timers st ++ [(now st + 200, TagPass d retry)]
  /\ (forall st2,
         irContainer (tagPass d retry st2) = irContainer st2
         /\ affordanceVisible (tagPass d retry st2) = affordanceVisible st2).
Proof.
  intros Ha Hd Hm Hv st1. subst st1.
  destruct (irContainer st) as [els|] eqn:Hc.
  - rewrite (applyDecorationsToVditor_present d retry st els Hv Hc).
    simpl. split; [discriminate|]. split; [reflexivity|].
    split; [|split; [reflexivity|intros st2; apply tagPass_empty; assumption]].
    intros els' [= <-]. unfold affordanceVisible. simpl.
    destruct (floatingToolbar st); auto.
  - rewrite (applyDecorationsToVditor_absent d retry st Hv Hc).
    simpl. split; [discriminate|]. split; [now intros ->|].
    split; [discriminate|].
    split; [reflexivity|intros st2; apply tagPass_empty; assumption].
Qed.

Lemma empty_change_set_apply_witness :
  previousMode
    (applyDecorationsToVditor
       (Some (mkDecorations [] [] [])) 0
       (renderedEditor sv (js "a") [paragraph "a"]))
  = Some sv.
Proof.
  apply (empty_change_set_apply
           (mkDecorations [] [] []) 0
           (renderedEditor sv (js "a") [paragraph "a"])
           eq_refl eq_refl eq_refl eq_refl).
  reflexivity.
Defined.

(** C3 as stated fails: on an idle state the call with the empty change
    set captures the mode, so the state is idle no longer; and on a state
    with a tagged node it performs the clearing. *)
Lemma empty_change_set_counterexample :
  let empty := mkDecorations [] [] [] in
  let st := renderedEditor wysiwyg (js "a") [paragraph "a"] in
  let tagged :=
    renderedEditor wysiwyg (js "a")
                   [mkElement "p" [cline_added_line] (js "a") None] in
  Idle st
  /\ previousMode (applyDecorationsToVditor (Some empty) 0 st)
     = Some wysiwyg
  /\ ~ Idle (applyDecorationsToVditor (Some empty) 0 st)
  /\ taggedNodes tagged = [0%nat]
  /\ taggedNodes (applyDecorationsToVditor (Some empty) 0 tagged) = [].
Proof.
  repeat split.
  intros (_ & H & _). vm_compute in H. discriminate.
Qed.

End Apply.

(* ================================================================== *)
(** * Retries and the saved mode across calls *)
(* ================================================================== *)

Section Sessions.

(** C1, as the code has it: there is no generation token, and a retry
    is not compared with anything when it fires.  In every state with
    the editor and the tree present, whatever ran since the retry was
    scheduled, the retry of [apply(A)] runs [apply(A)] again: it removes
    the tags that are there, saves the mode of that moment, hides the
    affordance and schedules the tagging pass of [A] 200 ms later; that
    pass tags the nodes of the lines of [A]. *)
Theorem stale_retry_reapplies
        (A : Decorations) (retry : nat) (st : State) (els : list Element) :
  vditor st = true -> irContainer st = Some els ->
  let st1 := runTask (CallApply (Some A) retry) st in
  irContainer st1 = Some (List.map undecorate els)
  /\ previousMode st1 = Some (modeOrIr st)
  /\ affordanceVisible st1 = false
  /\ timers st1 = timers st ++ [(now st + 200, TagPass A retry)]
  /\ irContainer (runTask (TagPass A retry) st1)
     = Some (fst (decorate
                    (split (value st))
                    (buildLineToElementMap
                       (List.map undecorate els)
                       (querySelectorAll blockSelector
                                         (List.map undecorate els))
                       (split (value st)))
                    A (List.map undecorate els))).
Proof.
  intros Hv Hc st1. subst st1. unfold runTask.
  rewrite (applyDecorationsToVditor_present A retry st els Hv Hc).
  split; [reflexivity|]. split; [reflexivity|].
  split; [unfold affordanceVisible; simpl;
          destruct (floatingToolbar st); reflexivity|].
  split; [reflexivity|].
  rewrite (tagPass_tree A retry _ (List.map undecorate els));
    reflexivity.
Qed.

Lemma stale_retry_reapplies_witness :
  irContainer
    (runTask (TagPass changeA 1)
       (runTask (CallApply (Some changeA) 1)
                (renderedEditor ir twoLines
                                [paragraph "a"; paragraph "b"])))
  = Some [mkElement "p" [cline_added_line] (js "a") None; paragraph "b"].
Proof.
  pose proof (stale_retry_reapplies
                changeA 1
                (renderedEditor ir twoLines [paragraph "a"; paragraph "b"])
                [paragraph "a"; paragraph "b"] eq_refl eq_refl) as H.
  destruct H as (_ & _ & _ & _ & H).
  rewrite H. vm_compute. reflexivity.
Defined.

(** C1 as stated fails.  [apply(A)] runs while the tree is missing and
    its retry is scheduled; the tree appears, [clear()] and [apply(B)]
    run, and no node is tagged.  Then the stale retry of [A] fires
    first: nothing stops it, it schedules a tagging pass of [A], and
    after the passes of [B] and of [A] the node of line 0 carries the
    tag of [A], which [B] does not name. *)
Lemma stale_retry_counterexample :
  let before := run (exampleEditor twoLines) supersedingEvents in
  timers before
  = [(400, CallApply (Some changeA) 1); (450, TagPass changeB 0)]
  /\ taggedNodes before = []
  /\ timers (run before [Timeout])
     = [(450, TagPass changeB 0); (600, TagPass changeA 1)]
  /\ irContainer (run before [Timeout; Timeout; Timeout])
     = Some [mkElement "p" [cline_added_line] (js "a") None;
             mkElement "p" [cline_modified_line] (js "b") None].
Proof. vm_compute. repeat split. Qed.

(** With the editor and the tree present, every call saves the mode of
    its own moment, whatever mode was saved before: the clearing at its
    start has reset the saved mode. *)
Lemma applyDecorationsToVditor_recaptures
      (d : Decorations) (retry : nat) (st : State) (els : list Element) :
  vditor st = true -> irContainer st = Some els ->
  previousMode (applyDecorationsToVditor (Some d) retry st)
  = Some (modeOrIr st).
Proof.
  intros Hv Hc.
  now rewrite (applyDecorationsToVditor_present d retry st els Hv Hc).
Qed.

(** [clearDecorations] does not touch the engine's mode. *)
Lemma clearDecorations_keeps_mode (st : State) :
  currentMode (clearDecorations st) = currentMode st.
Proof.
  unfold clearDecorations, hideFloatingToolbar.
  destruct (negb (vditor st)); [reflexivity|].
  destruct (irContainer st); [|reflexivity]. simpl.
  destruct (floatingToolbar st); reflexivity.
Qed.

(** C2 on the code: the first call saves ['wysiwyg']; the user switches
    to ['sv']; the second call, with no [clear()] message in between,
    replaces the saved mode by ['sv'].  The final [clear()] resets the
    saved mode and leaves the engine in ['sv']. *)
Lemma second_apply_overwrites_saved_mode :
  let st0 :=
    renderedEditor wysiwyg (js "x" ++ LF :: js "y")
                   [paragraph "x"; paragraph "y"] in
  let st1 :=
    run st0 [Message (apply_decorations
                        (Some (mkDecorations [] [] [0]))); Timeout] in
  let st2 :=
    run st1 [ModeSwitched sv;
             Message (apply_decorations
                        (Some (mkDecorations [1] [] []))); Timeout] in
  let st3 := run st2 [Message clear_decorations] in
  previousMode st1 = Some wysiwyg
  /\ previousMode st2 = Some sv
  /\ previousMode st3 = None
  /\ currentMode st3 = Some sv.
Proof. vm_compute. repeat split. Qed.

End Sessions.

(* ================================================================== *)
(** * The loops of the second tier run to their end *)
(* ================================================================== *)

Section Reexpansion.

Variable s : jsstring.

Lemma skipWhitespace_ge (fuel : nat) :
  forall pos, pos <= skipWhitespace fuel s pos.
Proof.
  induction fuel as [|fuel IH]; intros pos; simpl; [lia|].
  destruct ((pos <? len s - 1) && wsAt s (pos + 1)); [|lia].
  specialize (IH (pos + 1)). lia.
Qed.

(** Once the fuel covers the rest of the source, more fuel changes
    nothing: the inner loop has stopped by its own condition. *)
Lemma skipWhitespace_fuel (fuel : nat) :
  forall pos,
    (Z.to_nat (len s - pos) <= fuel)%nat ->
    skipWhitespace (S fuel) s pos = skipWhitespace fuel s pos.
Proof.
  induction fuel as [|fuel IH]; intros pos H.
  - simpl. destruct (pos <? len s - 1) eqn:E; [|reflexivity].
    apply Z.ltb_lt in E. lia.
  - change (skipWhitespace (S (S fuel)) s pos)
      with (if (pos <? len s - 1) && wsAt s (pos + 1)
            then skipWhitespace (S fuel) s (pos + 1) else pos).
    change (skipWhitespace (S fuel) s pos)
      with (if (pos <? len s - 1) && wsAt s (pos + 1)
            then skipWhitespace fuel s (pos + 1) else pos).
    destruct ((pos <? len s - 1) && wsAt s (pos + 1)); [|reflexivity].
    apply IH. lia.
Qed.

Lemma mapBack_S (target : Z) (fuel : nat) (pos npos : Z) :
  mapBack (S fuel) s target pos npos
  = if (npos <? target) && (pos <? len s)
    then mapBack fuel s target
                 ((if wsAt s pos
                   then skipWhitespace (List.length s) s pos
                   else pos) + 1)
                 (npos + 1)
    else pos.
Proof. reflexivity. Qed.

(** The same for the outer loop: with the length of the source as fuel
    it ends because its condition fails, not because the fuel is
    spent. *)
Lemma mapBack_fuel (target : Z) (fuel : nat) :
  forall pos npos,
    (Z.to_nat (len s - pos) <= fuel)%nat ->
    mapBack (S fuel) s target pos npos = mapBack fuel s target pos npos.
Proof.
  induction fuel as [|fuel IH]; intros pos npos H.
  - simpl. destruct (pos <? len s) eqn:E.
    + apply Z.ltb_lt in E. lia.
    + now rewrite andb_false_r.
  - rewrite (mapBack_S target (S fuel)), (mapBack_S target fuel pos npos).
    destruct ((npos <? target) && (pos <? len s)) eqn:E; [|reflexivity].
    apply IH.
    apply andb_true_iff in E as [_ E]. apply Z.ltb_lt in E.
    destruct (wsAt s pos).
    + pose proof (skipWhitespace_ge (List.length s) pos). lia.
    + lia.
Qed.

Lemma mapBack_enough (target : Z) (extra : nat) :
  mapBack (List.length s + extra) s target 0 0
  = mapBack (List.length s) s target 0 0.
Proof.
  induction extra as [|extra IH]; [now rewrite Nat.add_0_r|].
  rewrite Nat.add_succ_r, mapBack_fuel; [exact IH|].
  unfold len. lia.
Qed.

End Reexpansion.

(** The second tier on the example of the specification: the selection
    "hello world" is found in "hello   world" on line 0. *)
Example whitespace_normalized_match :
  option_map startLine
    (getSelectionLineRange (exampleEditor (js "hello   world"))
                           (js "hello world"))
  = Some 0.
Proof. reflexivity. Qed.

(* ================================================================== *)
(** * Node mapper: reservation and proximity *)
(* ================================================================== *)

Lemma In_skipn {A} (x : A) (n : nat) (l : list A) :
  In x (skipn n l) -> In x l.
Proof.
  intros H. rewrite <- (firstn_skipn n l). apply in_or_app. now right.
Qed.

Section Reservation.

Variable els : list Element.
Variable allBlockElements : list nat.

Lemma firstUnused_spec (test : Element -> bool) (usedElements : gset nat) :
  forall candidates e,
    firstUnused test els usedElements candidates = Some e ->
    In e candidates /\ (e ∉ usedElements)
    /\ exists el, els !! e = Some el /\ test el = true.
Proof.
  induction candidates as [|c rest IH]; intros e H; simpl in H;
    [discriminate|].
  destruct (bool_decide (c ∈ usedElements)) eqn:Eu.
  - destruct (IH e H) as (Hin & Hrest). split; [now right|exact Hrest].
  - apply bool_decide_eq_false in Eu.
    destruct (els !! c) as [el|] eqn:El.
    + destruct (test el) eqn:Et.
      * injection H as <-. split; [now left|]. split; [exact Eu|].
        exists el. now split.
      * destruct (IH e H) as (Hin & Hrest). split; [now right|exact Hrest].
    + destruct (IH e H) as (Hin & Hrest). split; [now right|exact Hrest].
Qed.

Lemma firstUnusedFrom_spec (test : Element -> bool) (usedElements : gset nat) :
  forall candidates i j e,
    firstUnusedFrom test els usedElements candidates i = Some (j, e) ->
    In e candidates /\ (e ∉ usedElements) /\ (i <= j)%nat
    /\ exists el, els !! e = Some el /\ test el = true.
Proof.
  induction candidates as [|c rest IH]; intros i j e H; simpl in H;
    [discriminate|].
  destruct (bool_decide (c ∈ usedElements)) eqn:Eu.
  - destruct (IH _ _ _ H) as (Hin & Hu & Hij & Hrest).
    repeat split; [now right|exact Hu|lia|exact Hrest].
  - apply bool_decide_eq_false in Eu.
    destruct (els !! c) as [el|] eqn:El.
    + destruct (test el) eqn:Et.
      * injection H as <- <-. repeat split; [now left|exact Eu|lia|].
        exists el. now split.
      * destruct (IH _ _ _ H) as (Hin & Hu & Hij & Hrest).
        repeat split; [now right|exact Hu|lia|exact Hrest].
    + destruct (IH _ _ _ H) as (Hin & Hu & Hij & Hrest).
      repeat split; [now right|exact Hu|lia|exact Hrest].
Qed.

Lemma Reserved_insert (entries : list (Z * jsstring))
      (m : gmap Z nat) (used : gset nat) (k : Z) (line : jsstring) (e : nat) :
  Reserved els allBlockElements entries m used ->
  In (k, line) entries -> truthy (trim line) = true ->
  e ∉ used -> In e allBlockElements -> is_Some (els !! e) ->
  Reserved els allBlockElements entries (<[k := e]> m) ({[e]} ∪ used).
Proof.
  intros (H1 & H2 & H3 & H4) Hin Hline Hfresh Hblock Hel.
  split; [|split; [|split]].
  - intros k' e' Hk'. destruct (decide (k = k')) as [<-|Hne].
    + rewrite lookup_insert_eq in Hk'. injection Hk' as <-.
      apply elem_of_union. left. now apply elem_of_singleton.
    + rewrite lookup_insert_ne in Hk' by exact Hne.
      apply H1 in Hk'. apply elem_of_union. now right.
  - intros k1 k2 e' Hk1 Hk2.
    destruct (decide (k = k1)) as [<-|Hne1];
      destruct (decide (k = k2)) as [<-|Hne2].
    + reflexivity.
    + rewrite lookup_insert_eq in Hk1. injection Hk1 as <-.
      rewrite lookup_insert_ne in Hk2 by exact Hne2.
      apply H1 in Hk2. contradiction.
    + rewrite lookup_insert_eq in Hk2. injection Hk2 as <-.
      rewrite lookup_insert_ne in Hk1 by exact Hne1.
      apply H1 in Hk1. contradiction.
    + rewrite lookup_insert_ne in Hk1 by exact Hne1.
      rewrite lookup_insert_ne in Hk2 by exact Hne2.
      eapply H2; eassumption.
  - intros e' He'. apply elem_of_union in He' as [He'|He'].
    + apply elem_of_singleton in He'. subst. now split.
    + now apply H3.
  - intros k' e' Hk'. destruct (decide (k = k')) as [<-|Hne].
    + exists line. now split.
    + rewrite lookup_insert_ne in Hk' by exact Hne. eapply H4; eassumption.
Qed.

Lemma strategy1_Reserved (entries : list (Z * jsstring))
      (m : gmap Z nat) (used : gset nat) (entry : Z * jsstring) :
  Reserved els allBlockElements entries m used -> In entry entries ->
  Reserved els allBlockElements entries (fst (strategy1 els allBlockElements (m, used) entry))
           (snd (strategy1 els allBlockElements (m, used) entry)).
Proof.
  intros HR Hin. destruct entry as [k line]. unfold strategy1.
  destruct (truthy (trim line)) eqn:Et; [|exact HR].
  destruct (firstUnused _ els used allBlockElements) as [e|] eqn:Ef;
    [|exact HR].
  apply firstUnused_spec in Ef as (Hb & Hu & el & Hel & _).
  simpl. eapply Reserved_insert; eauto.
Qed.

Lemma strategy2_Reserved (entries : list (Z * jsstring))
      (m : gmap Z nat) (used : gset nat) (cursor : nat)
      (entry : Z * jsstring) :
  Reserved els allBlockElements entries m used -> In entry entries ->
  let r := strategy2 els allBlockElements (m, used, cursor) entry in
  Reserved els allBlockElements entries (fst (fst r)) (snd (fst r)).
Proof.
  intros HR Hin. destruct entry as [k line]. unfold strategy2.
  destruct (negb (bool_decide (is_Some (m !! k))) && truthy (trim line)
            && (cursor <? List.length allBlockElements)%nat) eqn:Ec;
    [|exact HR].
  apply andb_true_iff in Ec as [Ec _].
  apply andb_true_iff in Ec as [_ Et].
  destruct (firstUnusedFrom _ els used _ cursor) as [[i e]|] eqn:Ef;
    [|exact HR].
  apply firstUnusedFrom_spec in Ef as (Hb & Hu & _ & el & Hel & _).
  simpl. eapply Reserved_insert; eauto.
  eapply In_skipn. exact Hb.
Qed.

Lemma fold_strategy1_Reserved (entries : list (Z * jsstring)) :
  forall todo m used,
    incl todo entries -> Reserved els allBlockElements entries m used ->
    Reserved els allBlockElements entries
             (fst (fold_left (strategy1 els allBlockElements) todo (m, used)))
             (snd (fold_left (strategy1 els allBlockElements) todo (m, used))).
Proof.
  induction todo as [|entry rest IH]; intros m used Hincl HR; [exact HR|].
  cbn [fold_left].
  pose proof (strategy1_Reserved entries m used entry HR
                (Hincl entry (or_introl eq_refl))) as H1.
  destruct (strategy1 els allBlockElements (m, used) entry) as [m' used'].
  simpl in H1. apply IH; [|exact H1].
  intros x Hx. apply Hincl. now right.
Qed.

Lemma fold_strategy2_Reserved (entries : list (Z * jsstring)) :
  forall todo m used cursor,
    incl todo entries -> Reserved els allBlockElements entries m used ->
    let r := fold_left (strategy2 els allBlockElements) todo
                       (m, used, cursor) in
    Reserved els allBlockElements entries (fst (fst r)) (snd (fst r)).
Proof.
  induction todo as [|entry rest IH]; intros m used cursor Hincl HR;
    [exact HR|].
  cbn [fold_left].
  pose proof (strategy2_Reserved entries m used cursor entry HR
                (Hincl entry (or_introl eq_refl))) as H1.
  destruct (strategy2 els allBlockElements (m, used, cursor) entry)
    as [[m' used'] cursor'].
  simpl in H1. apply IH; [|exact H1].
  intros x Hx. apply Hincl. now right.
Qed.

Lemma Reserved_empty (entries : list (Z * jsstring)) :
  Reserved els allBlockElements entries ∅ ∅.
Proof.
  split; [|split; [|split]]; intros;
    try (rewrite lookup_empty in *; discriminate); set_solver.
Qed.

(** The reserved map with the set of its used elements. *)
Lemma reservedMap_Reserved (lines : list jsstring) :
  exists used,
    Reserved els allBlockElements (indexed lines) (reservedMap els allBlockElements lines) used.
Proof.
  unfold reservedMap.
  pose proof (fold_strategy1_Reserved (indexed lines) (indexed lines) ∅ ∅
                (incl_refl _) (Reserved_empty _)) as H1.
  destruct (fold_left (strategy1 els allBlockElements) (indexed lines) (∅, ∅))
    as [m1 used1].
  pose proof (fold_strategy2_Reserved (indexed lines) (indexed lines)
                m1 used1 O (incl_refl _) H1) as H2.
  destruct (fold_left (strategy2 els allBlockElements) (indexed lines)
                      (m1, used1, O)) as [[m2 used2] cursor].
  exists used2. exact H2.
Qed.

End Reservation.

Section Proximity.

Lemma indexed_from_In {A} (l : list A) :
  forall (i0 : Z) k x,
    In (k, x) (indexed_from l i0) ->
    exists j, (j < List.length l)%nat /\ k = i0 + Z.of_nat j
              /\ nth_error l j = Some x.
Proof.
  induction l as [|y rest IH]; intros i0 k x H; simpl in H; [contradiction|].
  destruct H as [H|H].
  - injection H as <- <-. exists O. simpl. repeat split; lia.
  - destruct (IH _ _ _ H) as (j & Hj & Hk & Hn).
    exists (S j). simpl. repeat split; [lia|lia|exact Hn].
Qed.

Lemma closestBefore_Some (m : gmap Z nat) :
  forall n e, closestBefore m n = Some e ->
              exists j, (j < n)%nat /\ m !! Z.of_nat j = Some e.
Proof.
  induction n as [|i IH]; intros e H; simpl in H; [discriminate|].
  destruct (m !! Z.of_nat i) as [e'|] eqn:E.
  - injection H as <-. exists i. split; [lia|exact E].
  - destruct (IH e H) as (j & Hj & Hm). exists j. split; [lia|exact Hm].
Qed.

Lemma closestBefore_found (m : gmap Z nat) :
  forall n j, (j < n)%nat -> is_Some (m !! Z.of_nat j) ->
              is_Some (closestBefore m n).
Proof.
  induction n as [|i IH]; intros j Hj Hm; [lia|]. simpl.
  destruct (m !! Z.of_nat i) as [e'|] eqn:E; [eauto|].
  destruct (decide (j = i)) as [->|Hne].
  - rewrite E in Hm. destruct Hm as [? Hm]. discriminate.
  - apply (IH j); [lia|exact Hm].
Qed.

Lemma closestAfter_Some (m : gmap Z nat) :
  forall count i e, closestAfter m i count = Some e ->
                    exists j, i <= j < i + Z.of_nat count /\ m !! j = Some e.
Proof.
  induction count as [|c IH]; intros i e H; simpl in H; [discriminate|].
  destruct (m !! i) as [e'|] eqn:E.
  - injection H as <-. exists i. split; [lia|exact E].
  - destruct (IH _ _ H) as (j & Hj & Hm). exists j. split; [lia|exact Hm].
Qed.

Lemma closestAfter_found (m : gmap Z nat) :
  forall count i j, i <= j < i + Z.of_nat count -> is_Some (m !! j) ->
                    is_Some (closestAfter m i count).
Proof.
  induction count as [|c IH]; intros i j Hj Hm; [lia|]. simpl.
  destruct (m !! i) as [e'|] eqn:E; [eauto|].
  destruct (decide (j = i)) as [->|Hne].
  - rewrite E in Hm. destruct Hm as [? Hm]. discriminate.
  - apply (IH (i + 1) j); [lia|exact Hm].
Qed.

Variable nlines : nat.
Variable m0 : gmap Z nat.

Lemma strategy3_Filled (m : gmap Z nat) (i : nat) (line : jsstring) :
  (i < nlines)%nat -> Filled nlines m0 m i ->
  Filled nlines m0 (strategy3 nlines m (Z.of_nat i, line)) (S i).
Proof.
  intros Hi (H1 & H2 & H3). unfold strategy3.
  destruct (bool_decide (is_Some (m !! Z.of_nat i))) eqn:Eb; simpl.
  - apply bool_decide_eq_true in Eb.
    split; [exact H1|]. split; [exact H2|].
    intros Hne j Hj. destruct (decide (j = i)) as [->|Hji]; [exact Eb|].
    apply H3; [exact Hne|lia].
  - apply bool_decide_eq_false in Eb.
    assert (Hnone : m !! Z.of_nat i = None).
    { destruct (m !! Z.of_nat i) eqn:E; [|reflexivity].
      exfalso. apply Eb. eauto. }
    assert (Hm0 : m0 !! Z.of_nat i = None).
    { destruct (m0 !! Z.of_nat i) eqn:E; [|reflexivity].
      apply H1 in E. congruence. }
    rewrite Nat2Z.id.
    assert (Hins : forall e, (exists k', m !! k' = Some e) ->
                             Filled nlines m0 (<[Z.of_nat i := e]> m) (S i)).
    { intros e (k' & Hk').
      split; [|split].
      - intros k e' Hk. destruct (decide (Z.of_nat i = k)) as [<-|Hne];
          [congruence|].
        rewrite lookup_insert_ne by exact Hne. now apply H1.
      - intros k e' Hk. destruct (decide (Z.of_nat i = k)) as [<-|Hne].
        + rewrite lookup_insert_eq in Hk. injection Hk as <-.
          eapply H2. exact Hk'.
        + rewrite lookup_insert_ne in Hk by exact Hne. eapply H2. exact Hk.
      - intros Hne j Hj. destruct (decide (j = i)) as [->|Hji].
        + rewrite lookup_insert_eq. eauto.
        + rewrite lookup_insert_ne by lia. apply H3; [exact Hne|lia]. }
    destruct (closestBefore m i) as [e|] eqn:Ebefore.
    + apply Hins. apply closestBefore_Some in Ebefore as (j & _ & Hj). eauto.
    + destruct (closestAfter m (Z.of_nat i + 1) (nlines - S i)) as [e|]
        eqn:Eafter.
      * apply Hins. apply closestAfter_Some in Eafter as (j & _ & Hj). eauto.
      * split; [exact H1|]. split; [exact H2|].
        intros (k0 & Hk0 & Hsome) j Hj. exfalso.
        assert (Hm : is_Some (m !! Z.of_nat k0)).
        { destruct Hsome as [e He]. apply H1 in He. eauto. }
        destruct (Nat.lt_trichotomy k0 i) as [Hlt|[Heq|Hgt]].
        -- pose proof (closestBefore_found m i k0 Hlt Hm) as [e He].
           congruence.
        -- subst k0. rewrite Hnone in Hm. destruct Hm as [? Hm].
           discriminate.
        -- pose proof (closestAfter_found m (nlines - S i) (Z.of_nat i + 1)
                         (Z.of_nat k0)) as Hf.
           destruct Hf as [e He]; [lia|exact Hm|congruence].
Qed.

Lemma fold_strategy3_Filled :
  forall rest i m,
    (i + List.length rest = nlines)%nat -> Filled nlines m0 m i ->
    Filled nlines m0 (fold_left (strategy3 nlines) (indexed_from rest (Z.of_nat i)) m)
           nlines.
Proof.
  induction rest as [|line rest IH]; intros i m Hlen HF.
  - simpl in *. replace i with nlines in HF by lia. exact HF.
  - cbn [indexed_from fold_left].
    replace (Z.of_nat i + 1) with (Z.of_nat (S i)) by lia.
    apply IH; [simpl in Hlen; lia|].
    apply strategy3_Filled; [simpl in Hlen; lia|exact HF].
Qed.

End Proximity.

Lemma buildLineToElementMap_reservedMap
      (els : list Element) (allBlockElements : list nat)
      (lines : list jsstring) :
  buildLineToElementMap els allBlockElements lines
  = fold_left (strategy3 (List.length lines)) (indexed lines)
              (reservedMap els allBlockElements lines).
Proof.
  unfold buildLineToElementMap, reservedMap.
  destruct (fold_left (strategy1 els allBlockElements) (indexed lines) (∅, ∅))
    as [m1 used1].
  destruct (fold_left (strategy2 els allBlockElements) (indexed lines)
                      (m1, used1, O)) as [[m2 used2] cursor].
  reflexivity.
Qed.

Lemma buildLineToElementMap_Filled
      (els : list Element) (allBlockElements : list nat)
      (lines : list jsstring) :
  Filled (List.length lines) (reservedMap els allBlockElements lines)
         (buildLineToElementMap els allBlockElements lines)
         (List.length lines).
Proof.
  rewrite buildLineToElementMap_reservedMap. unfold indexed.
  apply (fold_strategy3_Filled (List.length lines) _ lines O); [reflexivity|].
  split; [auto|]. split; [eauto|]. intros _ j Hj. lia.
Qed.

Section NodeMapperProperties.

Variable els : list Element.
Variable allBlockElements : list nat.
Variable lines : list jsstring.

(** The reserving passes (strategies 1 and 2) give no element to two
    lines. *)
Theorem reservation_never_shares_a_node (k1 k2 : Z) (e : nat) :
  reservedMap els allBlockElements lines !! k1 = Some e ->
  reservedMap els allBlockElements lines !! k2 = Some e ->
  k1 = k2.
Proof.
  destruct (reservedMap_Reserved els allBlockElements lines)
    as (used & _ & Hinj & _).
  apply Hinj.
Qed.

(** The reserving passes map only non-blank lines of the source, and
    only to block elements of the tree. *)
Theorem reservation_maps_non_blank_lines_to_blocks (k : Z) (e : nat) :
  reservedMap els allBlockElements lines !! k = Some e ->
  In e allBlockElements /\ is_Some (els !! e)
  /\ exists j line, k = Z.of_nat j /\ nth_error lines j = Some line
                    /\ truthy (trim line) = true.
Proof.
  intros H.
  destruct (reservedMap_Reserved els allBlockElements lines)
    as (used & Hused & _ & Hblock & Hkeys).
  destruct (Hblock e (Hused k e H)) as [Hin Hel].
  split; [exact Hin|]. split; [exact Hel|].
  destruct (Hkeys k e H) as (line & Hline & Ht).
  apply indexed_from_In in Hline as (j & _ & Hk & Hn).
  exists j, line. repeat split; [lia|exact Hn|exact Ht].
Qed.



End NodeMapperProperties.

Lemma reservation_never_shares_a_node_witness :
  reservedMap sampleTree (querySelectorAll blockSelector sampleTree)
              sampleLines !! 2 = Some 2%nat
  /\ (2 : Z) = 2.
Proof.
  split; [reflexivity|].
  apply (reservation_never_shares_a_node
           sampleTree (querySelectorAll blockSelector sampleTree)
           sampleLines 2 2 2); reflexivity.
Defined.

Lemma reservation_maps_non_blank_lines_to_blocks_witness :
  In 2%nat (querySelectorAll blockSelector sampleTree)
  /\ is_Some (sampleTree !! 2%nat)
  /\ exists j line, (2 : Z) = Z.of_nat j
                    /\ nth_error sampleLines j = Some line
                    /\ truthy (trim line) = true.
Proof.
  apply (reservation_maps_non_blank_lines_to_blocks
           sampleTree (querySelectorAll blockSelector sampleTree)
           sampleLines 2 2).
  reflexivity.
Defined.


(* ================================================================== *)
(** * What a tagging pass changes and what it leaves alone *)
(* ================================================================== *)

Section TaggingFrame.

Lemma tagsAdded_refl (a : Element) : tagsAdded a a.
Proof.
  repeat split. exists []. split; [now rewrite app_nil_r|constructor].
Qed.

Lemma tagsAdded_add (className : string) (a b : Element) :
  In className decorationClasses -> tagsAdded a b ->
  tagsAdded a (add className b).
Proof.
  intros Hc (Hn & Ht & Hp & extra & Hcl & Hex). unfold add.
  destruct (contains className b); [repeat split; eauto|].
  repeat split; simpl; try assumption.
  exists (extra ++ [className]). split.
  - rewrite Hcl. now rewrite app_assoc.
  - apply Forall_app. split; [exact Hex|]. constructor; [exact Hc|constructor].
Qed.

Lemma contains_app (c : string) (a : Element) (cs : list string) :
  contains c (setClassList (classList a ++ cs) a)
  = contains c a || existsb (String.eqb c) cs.
Proof. unfold contains. simpl. apply existsb_app. Qed.

(** A class that an element has is not lost by tagging. *)
Lemma tagsAdded_contains (c : string) (a b : Element) :
  tagsAdded a b -> contains c a = true -> contains c b = true.
Proof.
  intros (_ & _ & _ & extra & Hcl & _) H. unfold contains in *.
  rewrite Hcl, existsb_app, H. reflexivity.
Qed.

Lemma contains_add_same (c : string) (el : Element) :
  contains c (add c el) = true.
Proof.
  unfold add. destruct (contains c el) eqn:E; [exact E|].
  unfold contains. simpl. rewrite existsb_app. simpl.
  now rewrite String.eqb_refl, orb_true_r.
Qed.

Lemma updateElement_tagsAdded (className : string) (i : nat)
      (els0 els : list Element) :
  In className decorationClasses ->
  Forall2 tagsAdded els0 els ->
  Forall2 tagsAdded els0 (updateElement (add className) i els).
Proof.
  intros Hc H. unfold updateElement. apply Forall2_alter_r; [exact H|].
  intros a b _ _ Hab. now apply tagsAdded_add.
Qed.

Lemma applyDecorationToLine_tagsAdded
      (lines : list jsstring) (lineToElementMap : gmap Z nat)
      (lineNum : Z) (className : string) (els0 els els' : list Element) :
  In className decorationClasses ->
  Forall2 tagsAdded els0 els ->
  applyDecorationToLine lines lineToElementMap lineNum className els
  = Some els' ->
  Forall2 tagsAdded els0 els'.
Proof.
  intros Hc H. unfold applyDecorationToLine.
  pose proof (fun i => updateElement_tagsAdded className i els0 els Hc H)
    as Hup.
  destruct ((lineNum <? 0) || (lineNum >=? Z.of_nat (List.length lines)));
    [intros [= <-]; exact H|].
  destruct (lineToElementMap !! lineNum) as [element|].
  - destruct (updateElement (add className) element els !! element)
      as [el|]; [|intros [= <-]; apply Hup].
    destruct (parentElement el) as [parent|]; [|intros [= <-]; apply Hup].
    destruct (updateElement (add className) element els !! parent)
      as [pel|]; [|intros [= <-]; apply Hup].
    destruct (contains vditor_ir__node pel); intros [= <-]; [|apply Hup].
    apply updateElement_tagsAdded; [exact Hc|apply Hup].
  - destruct (nth_error lines (Z.to_nat lineNum)) as [line|];
      [|discriminate].
    destruct (truthy (trim line)); [|intros [= <-]; exact H].
    destruct (findByText (trim line) els); intros [= <-];
      [apply Hup|exact H].
Qed.

Lemma forEachLine_tagsAdded
      (lines : list jsstring) (lineToElementMap : gmap Z nat)
      (className : string) (els0 : list Element) :
  In className decorationClasses ->
  forall indices els,
    Forall2 tagsAdded els0 els ->
    Forall2 tagsAdded els0
            (fst (forEachLine lines lineToElementMap className indices els)).
Proof.
  intros Hc. induction indices as [|n rest IH]; intros els H; [exact H|].
  simpl.
  destruct (applyDecorationToLine lines lineToElementMap n className els)
    as [els'|] eqn:E; [|exact H].
  apply IH. eapply applyDecorationToLine_tagsAdded; eauto.
Qed.

Lemma decorate_tagsAdded
      (lines : list jsstring) (lineToElementMap : gmap Z nat)
      (d : Decorations) (els0 els : list Element) :
  Forall2 tagsAdded els0 els ->
  Forall2 tagsAdded els0 (fst (decorate lines lineToElementMap d els)).
Proof.
  intros H. unfold decorate.
  pose proof (forEachLine_tagsAdded lines lineToElementMap cline_added_line
                els0 ltac:(simpl; auto) (added d) els H) as H1.
  destruct (forEachLine lines lineToElementMap cline_added_line
                        (added d) els) as [els1 ok1].
  simpl in H1. destruct ok1; [|exact H1].
  pose proof (forEachLine_tagsAdded lines lineToElementMap cline_deleted_line
                els0 ltac:(simpl; auto) (deleted d) els1 H1) as H2.
  destruct (forEachLine lines lineToElementMap cline_deleted_line
                        (deleted d) els1) as [els2 ok2].
  simpl in H2. destruct ok2; [|exact H2].
  apply forEachLine_tagsAdded; [simpl; auto|exact H2].
Qed.

Lemma Forall2_tagsAdded_refl (els : list Element) :
  Forall2 tagsAdded els els.
Proof.
  induction els; constructor; [apply tagsAdded_refl|assumption].
Qed.

Lemma tagPass_only_adds_tags_aux
      (d : Decorations) (retry : nat) (st : State) (els : list Element) :
  vditor st = true -> irContainer st = Some els ->
  exists els',
    irContainer (tagPass d retry st) = Some els'
    /\ Forall2 tagsAdded els els'
    /\ vditor (tagPass d retry st) = true.
Proof.
  intros Hv Hc. eexists. split; [apply (tagPass_tree d retry st els Hv Hc)|].
  split; [apply decorate_tagsAdded, Forall2_tagsAdded_refl|].
  unfold tagPass. rewrite Hc, Hv.
  destruct (decorate _ _ d els) as [els' ok]. simpl.
  destruct (ok && _); exact Hv.
Qed.

(** A tagging pass that finds the editor and the tree keeps the number
    and the order of the elements, their names, texts and parents, and
    every class they have; it only appends decoration classes.  The
    source text, the modes, the clock and the timers are not touched. *)
Theorem tagPass_only_adds_tags
        (d : Decorations) (retry : nat) (st : State) (els : list Element) :
  vditor st = true -> irContainer st = Some els ->
  exists els',
    irContainer (tagPass d retry st) = Some els'
    /\ Forall2 tagsAdded els els'
    /\ value (tagPass d retry st) = value st
    /\ currentMode (tagPass d retry st) = currentMode st
    /\ previousMode (tagPass d retry st) = previousMode st
    /\ now (tagPass d retry st) = now st
    /\ timers (tagPass d retry st) = timers st.
Proof.
  intros Hv Hc. eexists. split; [apply (tagPass_tree d retry st els Hv Hc)|].
  split; [apply decorate_tagsAdded, Forall2_tagsAdded_refl|].
  unfold tagPass. rewrite Hc, Hv.
  destruct (decorate _ _ d els) as [els' ok]. simpl.
  destruct (ok && _); repeat split.
Qed.

Lemma tagPass_only_adds_tags_witness :
  exists els',
    irContainer (tagPass (mkDecorations [0] [] [2]) 0 sampleEditor)
    = Some els'
    /\ Forall2 tagsAdded sampleTree els'.
Proof.
  destruct (tagPass_only_adds_tags (mkDecorations [0] [] [2]) 0
                                   sampleEditor sampleTree)
    as (els' & Hc & Hrel & _); [reflexivity|reflexivity|].
  exists els'. split; [exact Hc|exact Hrel].
Defined.

Lemma filter_decoration_extra (extra : list string) :
  List.Forall (fun c => In c decorationClasses) extra ->
  List.filter
    (fun c => negb (existsb (String.eqb c) decorationClasses)) extra = [].
Proof.
  induction 1 as [|c rest Hc _ IH]; [reflexivity|]. cbn [List.filter].
  assert (existsb (String.eqb c) decorationClasses = true) as ->.
  { apply existsb_exists. exists c. split; [exact Hc|apply String.eqb_refl]. }
  exact IH.
Qed.

Lemma filter_keeps (banned cs : list string) :
  List.Forall (fun b => existsb (String.eqb b) cs = false) banned ->
  List.filter (fun c => negb (existsb (String.eqb c) banned)) cs = cs.
Proof.
  induction cs as [|c rest IH]; intros H; [reflexivity|].
  cbn [List.filter].
  assert (existsb (String.eqb c) banned = false) as ->.
  { destruct (existsb (String.eqb c) banned) eqn:E; [|reflexivity].
    apply existsb_exists in E as (b & Hb & Hcb).
    apply String.eqb_eq in Hcb. subst b.
    rewrite List.Forall_forall in H. specialize (H c Hb).
    cbn [existsb] in H. rewrite String.eqb_refl in H. discriminate. }
  cbn [negb]. f_equal. apply IH.
  rewrite List.Forall_forall in *. intros b Hb. specialize (H b Hb).
  cbn [existsb] in H. now apply orb_false_iff in H as [_ H].
Qed.

Lemma filter_untagged (cs : list string) :
  existsb (String.eqb cline_added_line) cs = false ->
  existsb (String.eqb cline_deleted_line) cs = false ->
  existsb (String.eqb cline_modified_line) cs = false ->
  List.filter
    (fun c => negb (existsb (String.eqb c) decorationClasses)) cs = cs.
Proof.
  intros Ha Hd Hm. apply filter_keeps.
  unfold decorationClasses. repeat constructor; assumption.
Qed.

(** Removing the tags from a freshly tagged element gives back the
    element it was. *)
Lemma undecorate_tagsAdded (a b : Element) :
  decoratedSelector a = false -> tagsAdded a b -> undecorate b = a.
Proof.
  intros Ha (Hn & Ht & Hp & extra & Hcl & Hex).
  unfold decoratedSelector in Ha.
  apply orb_false_iff in Ha as [Ha Hm].
  apply orb_false_iff in Ha as [Ha Hd].
  assert (Hfilter :
            List.filter
              (fun c => negb (existsb (String.eqb c) decorationClasses))
              (classList b) = classList a).
  { rewrite Hcl, List.filter_app.
    rewrite (filter_decoration_extra extra Hex), app_nil_r.
    unfold contains in Ha, Hd, Hm. apply filter_untagged; assumption. }
  unfold undecorate.
  destruct (decoratedSelector b) eqn:Eb.
  - unfold remove, setClassList. rewrite Hfilter, Hn, Ht, Hp.
    destruct a; reflexivity.
  - destruct extra as [|c extra'].
    + rewrite app_nil_r in Hcl. destruct a, b; simpl in *. congruence.
    + exfalso. inversion Hex as [|? ? Hc _]; subst.
      assert (contains c b = true) as Hcb.
      { unfold contains. rewrite Hcl, existsb_app. simpl.
        now rewrite String.eqb_refl, orb_true_r. }
      unfold decoratedSelector in Eb.
      simpl in Hc. destruct Hc as [<-|[<-|[<-|[]]]];
        rewrite Hcb in Eb; simpl in Eb;
        rewrite ?orb_true_r in Eb; discriminate.
Qed.

(** Apply, then clear: on a tree that carries no tag, the clearing after
    a tagging pass gives back the very elements the pass found. *)
Theorem clear_after_tagPass_restores_tree
        (d : Decorations) (retry : nat) (st : State) (els : list Element) :
  vditor st = true -> irContainer st = Some els ->
  taggedNodes st = [] ->
  irContainer (clearDecorations (tagPass d retry st)) = Some els.
Proof.
  intros Hv Hc Htag.
  destruct (tagPass_only_adds_tags_aux d retry st els Hv Hc)
    as (els' & Hc' & Hrel & Hv').
  unfold clearDecorations. rewrite Hv', Hc'. simpl.
  assert (List.map undecorate els' = els) as Hmap.
  { unfold taggedNodes in Htag. rewrite Hc in Htag.
    apply querySelectorAll_from_nil in Htag.
    clear Hc Hc'. induction Hrel as [|a b l l' Hab _ IH]; [reflexivity|].
    inversion Htag as [|? ? Ha Hl]; subst. simpl.
    rewrite (undecorate_tagsAdded a b Ha Hab), IH by exact Hl.
    reflexivity. }
  unfold hideFloatingToolbar.
  destruct (floatingToolbar _); simpl; now rewrite Hmap.
Qed.

Lemma clear_after_tagPass_restores_tree_witness :
  irContainer
    (clearDecorations (tagPass (mkDecorations [0] [] [2]) 0 sampleEditor))
  = Some sampleTree.
Proof.
  apply (clear_after_tagPass_restores_tree
           (mkDecorations [0] [] [2]) 0 sampleEditor sampleTree);
    reflexivity.
Defined.

End TaggingFrame.

Section MappedLines.

Variable lines : list jsstring.
Variable lineToElementMap : gmap Z nat.

Lemma parentElement_add (c : string) (el : Element) :
  parentElement (add c el) = parentElement el.
Proof. unfold add. destruct (contains c el); reflexivity. Qed.

Lemma contains_add_other (c c' : string) (el : Element) :
  contains c' el = true -> contains c' (add c el) = true.
Proof.
  intros H. unfold add. destruct (contains c el); [exact H|].
  unfold contains in *. simpl. rewrite existsb_app, H. reflexivity.
Qed.

(** The step on a line that the map knows: the element of the line
    carries the class afterwards, and so does its parent when that is a
    node wrapper below the container. *)
Lemma applyDecorationToLine_mapped
      (lineNum : Z) (className : string) (els : list Element)
      (element : nat) (el : Element) :
  0 <= lineNum < Z.of_nat (List.length lines) ->
  lineToElementMap !! lineNum = Some element ->
  els !! element = Some el ->
  exists els',
    applyDecorationToLine lines lineToElementMap lineNum className els
    = Some els'
    /\ (exists el', els' !! element = Some el'
                    /\ contains className el' = true)
    /\ (forall parent pel,
           parentElement el = Some parent ->
           els !! parent = Some pel ->
           contains vditor_ir__node pel = true ->
           exists pel', els' !! parent = Some pel'
                        /\ contains className pel' = true).
Proof.
  intros Hrange Hmap Hel. unfold applyDecorationToLine.
  assert ((lineNum <? 0) || (lineNum >=? Z.of_nat (List.length lines))
          = false) as ->.
  { apply orb_false_iff. split; [apply Z.ltb_ge; lia|].
    rewrite Z.geb_leb. apply Z.leb_gt. lia. }
  rewrite Hmap. unfold updateElement.
  remember (alter (add className) element els) as els1 eqn:Hels1.
  assert (H1 : els1 !! element = Some (add className el)).
  { subst els1. rewrite list_lookup_alter_eq, Hel. reflexivity. }
  assert (Hsame : exists el', els1 !! element = Some el'
                              /\ contains className el' = true).
  { eexists. split; [exact H1|apply contains_add_same]. }
  rewrite H1, parentElement_add.
  destruct (parentElement el) as [parent|] eqn:Ep.
  - destruct (els1 !! parent) as [pel1|] eqn:Epel1.
    + destruct (contains vditor_ir__node pel1) eqn:En.
      * eexists. split; [reflexivity|]. split.
        -- destruct (decide (parent = element)) as [->|Hne].
           ++ rewrite list_lookup_alter_eq, H1.
              eexists. split; [reflexivity|apply contains_add_same].
           ++ rewrite list_lookup_alter_ne by exact Hne. exact Hsame.
        -- intros p pel [= <-] Hp _.
           rewrite list_lookup_alter_eq, Epel1.
           eexists. split; [reflexivity|apply contains_add_same].
      * eexists. split; [reflexivity|]. split; [exact Hsame|].
        intros p pel [= <-] Hp Hnode. exfalso.
        destruct (decide (parent = element)) as [->|Hne].
        -- rewrite H1 in Epel1. injection Epel1 as <-.
           rewrite Hel in Hp. injection Hp as <-.
           rewrite (contains_add_other className _ el Hnode) in En.
           discriminate.
        -- subst els1. rewrite list_lookup_alter_ne in Epel1 by congruence.
           congruence.
    + eexists. split; [reflexivity|]. split; [exact Hsame|].
      intros p pel [= <-] Hp _. exfalso.
      destruct (decide (parent = element)) as [->|Hne]; [congruence|].
      subst els1. rewrite list_lookup_alter_ne in Epel1 by congruence.
      congruence.
  - eexists. split; [reflexivity|]. split; [exact Hsame|].
    intros p pel0 Hp. discriminate.
Qed.

(** A loop over line numbers tags the element of every line number in
    range that the map knows. *)
Lemma forEachLine_mapped
      (className : string) (lineNum : Z) (element : nat) :
  In className decorationClasses ->
  0 <= lineNum < Z.of_nat (List.length lines) ->
  lineToElementMap !! lineNum = Some element ->
  forall indices els,
    In lineNum indices ->
    is_Some (els !! element) ->
    exists el',
      fst (forEachLine lines lineToElementMap className indices els)
      !! element = Some el'
      /\ contains className el' = true.
Proof.
  intros Hc Hrange Hmap.
  induction indices as [|n rest IH]; intros els Hin [el Hel];
    [contradiction|].
  simpl.
  destruct (decide (n = lineNum)) as [->|Hne].
  - destruct (applyDecorationToLine_mapped lineNum className els element el
                Hrange Hmap Hel) as (els1 & -> & (el1 & Hel1 & Hcl1) & _).
    pose proof (forEachLine_tagsAdded lines lineToElementMap className els1
                  Hc rest els1 (Forall2_tagsAdded_refl els1)) as Hrel.
    destruct (Forall2_lookup_l _ _ _ _ _ Hrel Hel1) as (el' & Hel' & Hab).
    exists el'. split; [exact Hel'|].
    eapply tagsAdded_contains; eassumption.
  - destruct Hin as [Hin|Hin]; [congruence|].
    destruct (applyDecorationToLine_total lines lineToElementMap n className
                                          els) as [els1 Hstep].
    rewrite Hstep. apply IH; [exact Hin|].
    pose proof (applyDecorationToLine_tagsAdded
                  lines lineToElementMap n className els els els1 Hc
                  (Forall2_tagsAdded_refl els) Hstep) as Hrel.
    destruct (Forall2_lookup_l _ _ _ _ _ Hrel Hel) as (el1 & Hel1 & _).
    eauto.
Qed.

(** The three loops tag the element of a mapped line once for every
    category that names the line. *)
Lemma decorate_mapped (d : Decorations) (lineNum : Z) (element : nat)
      (els : list Element) :
  0 <= lineNum < Z.of_nat (List.length lines) ->
  lineToElementMap !! lineNum = Some element ->
  is_Some (els !! element) ->
  exists el',
    fst (decorate lines lineToElementMap d els) !! element = Some el'
    /\ (In lineNum (added d) -> contains cline_added_line el' = true)
    /\ (In lineNum (deleted d) -> contains cline_deleted_line el' = true)
    /\ (In lineNum (modified d) -> contains cline_modified_line el' = true).
Proof.
  intros Hrange Hmap Hel. unfold decorate.
  pose proof (forEachLine_ok lines lineToElementMap cline_added_line
                             (added d) els) as Hok1.
  pose proof (forEachLine_tagsAdded lines lineToElementMap cline_added_line
                els ltac:(simpl; auto) (added d) els
                (Forall2_tagsAdded_refl els)) as Hrel1.
  pose proof (fun Hin =>
                forEachLine_mapped cline_added_line lineNum element
                  ltac:(simpl; auto) Hrange Hmap (added d) els Hin Hel)
    as Htag1.
  destruct (forEachLine lines lineToElementMap cline_added_line
                        (added d) els) as [els1 ok1].
  simpl in Hok1, Hrel1, Htag1. subst ok1.
  assert (Hel1 : is_Some (els1 !! element)).
  { destruct Hel as [el Hel].
    destruct (Forall2_lookup_l _ _ _ _ _ Hrel1 Hel) as (el1 & Hel1 & _).
    eauto. }
  pose proof (forEachLine_ok lines lineToElementMap cline_deleted_line
                             (deleted d) els1) as Hok2.
  pose proof (forEachLine_tagsAdded lines lineToElementMap cline_deleted_line
                els1 ltac:(simpl; auto) (deleted d) els1
                (Forall2_tagsAdded_refl els1)) as Hrel2.
  pose proof (fun Hin =>
                forEachLine_mapped cline_deleted_line lineNum element
                  ltac:(simpl; auto) Hrange Hmap (deleted d) els1 Hin Hel1)
    as Htag2.
  destruct (forEachLine lines lineToElementMap cline_deleted_line
                        (deleted d) els1) as [els2 ok2].
  simpl in Hok2, Hrel2, Htag2. subst ok2.
  assert (Hel2 : is_Some (els2 !! element)).
  { destruct Hel1 as [el1 Hel1].
    destruct (Forall2_lookup_l _ _ _ _ _ Hrel2 Hel1) as (el2 & Hel2 & _).
    eauto. }
  pose proof (forEachLine_tagsAdded lines lineToElementMap
                cline_modified_line els2 ltac:(simpl; auto) (modified d) els2
                (Forall2_tagsAdded_refl els2)) as Hrel3.
  pose proof (fun Hin =>
                forEachLine_mapped cline_modified_line lineNum element
                  ltac:(simpl; auto) Hrange Hmap (modified d) els2 Hin Hel2)
    as Htag3.
  destruct Hel2 as [el2 Hel2].
  destruct (Forall2_lookup_l _ _ _ _ _ Hrel3 Hel2) as (el3 & Hel3 & Hab3).
  exists el3. split; [exact Hel3|]. split; [|split].
  - intros Hin. destruct (Htag1 Hin) as (x1 & Hx1 & Hc1).
    destruct (Forall2_lookup_l _ _ _ _ _ Hrel2 Hx1) as (x2 & Hx2 & Hab2).
    rewrite Hel2 in Hx2. injection Hx2 as <-.
    eapply tagsAdded_contains; [exact Hab3|].
    eapply tagsAdded_contains; eassumption.
  - intros Hin. destruct (Htag2 Hin) as (x2 & Hx2 & Hc2).
    rewrite Hel2 in Hx2. injection Hx2 as <-.
    eapply tagsAdded_contains; eassumption.
  - intros Hin. destruct (Htag3 Hin) as (x3 & Hx3 & Hc3).
    rewrite Hel3 in Hx3. injection Hx3 as <-. exact Hc3.
Qed.

End MappedLines.

(** Every line number of the change set that is in range and has a node
    in the map of the pass gets that node tagged, once for every
    category that names it: a line named as added and as modified makes
    its node carry both classes. *)
Theorem mapped_line_gets_every_tag
        (d : Decorations) (retry : nat) (st : State) (els : list Element)
        (lineNum : Z) (element : nat) :
  vditor st = true -> irContainer st = Some els ->
  0 <= lineNum < Z.of_nat (List.length (split (value st))) ->
  buildLineToElementMap els (querySelectorAll blockSelector els)
                        (split (value st)) !! lineNum = Some element ->
  exists els' el',
    irContainer (tagPass d retry st) = Some els'
    /\ els' !! element = Some el'
    /\ (In lineNum (added d) -> contains cline_added_line el' = true)
    /\ (In lineNum (deleted d) -> contains cline_deleted_line el' = true)
    /\ (In lineNum (modified d) -> contains cline_modified_line el' = true).
Proof.
  intros Hv Hc Hrange Hmap.
  assert (Hel : is_Some (els !! element)).
  { destruct (buildLineToElementMap_Filled
                els (querySelectorAll blockSelector els) (split (value st)))
      as (_ & H2 & _).
    destruct (H2 _ _ Hmap) as (k' & Hk').
    destruct (reservedMap_Reserved
                els (querySelectorAll blockSelector els) (split (value st)))
      as (used & Hused & _ & Hblock & _).
    apply (Hblock element). eapply Hused. exact Hk'. }
  destruct (decorate_mapped (split (value st)) _ d lineNum element els
                            Hrange Hmap Hel) as (el' & Hel' & Htags).
  eexists. exists el'.
  split; [apply (tagPass_tree d retry st els Hv Hc)|].
  split; [exact Hel'|exact Htags].
Qed.

Lemma mapped_line_gets_every_tag_witness :
  exists els' el',
    irContainer (tagPass (mkDecorations [2] [] [2]) 0 sampleEditor)
    = Some els'
    /\ els' !! 2%nat = Some el'
    /\ contains cline_added_line el' = true
    /\ contains cline_modified_line el' = true.
Proof.
  destruct (mapped_line_gets_every_tag
              (mkDecorations [2] [] [2]) 0 sampleEditor sampleTree 2 2)
    as (els' & el' & Hc & Hel & Ha & _ & Hm).
  - reflexivity.
  - reflexivity.
  - vm_compute. split; [discriminate|reflexivity].
  - reflexivity.
  - exists els', el'. split; [exact Hc|]. split; [exact Hel|].
    split; [apply Ha|apply Hm]; simpl; auto.
Defined.

(* ================================================================== *)
(** * What the clearing removes *)
(* ================================================================== *)

Section ClearFrame.

Lemma existsb_filter_banned (c : string) (banned l : list string) :
  existsb (String.eqb c)
          (List.filter (fun x => negb (existsb (String.eqb x) banned)) l)
  = existsb (String.eqb c) l && negb (existsb (String.eqb c) banned).
Proof.
  induction l as [|x rest IH]; [reflexivity|].
  cbn [List.filter existsb].
  destruct (String.eqb c x) eqn:Ecx.
  - apply String.eqb_eq in Ecx. subst x.
    destruct (existsb (String.eqb c) banned) eqn:Eb; cbn [negb].
    + rewrite IH. cbn [negb]. now rewrite !andb_false_r.
    + cbn [existsb]. now rewrite String.eqb_refl.
  - destruct (existsb (String.eqb x) banned); cbn [negb existsb orb].
    + exact IH.
    + rewrite Ecx. exact IH.
Qed.

Lemma contains_undecorate (c : string) (el : Element) :
  contains c (undecorate el)
  = contains c el && negb (existsb (String.eqb c) decorationClasses).
Proof.
  unfold undecorate. destruct (decoratedSelector el) eqn:Ed.
  - unfold contains, remove, setClassList. cbn [classList].
    apply existsb_filter_banned.
  - destruct (existsb (String.eqb c) decorationClasses) eqn:Eb;
      [|now rewrite andb_true_r].
    rewrite andb_false_r.
    apply existsb_exists in Eb as (b & Hb & Hcb).
    apply String.eqb_eq in Hcb. subst b.
    unfold decoratedSelector in Ed.
    apply orb_false_iff in Ed as [Ed Hm].
    apply orb_false_iff in Ed as [Ha Hd].
    unfold decorationClasses in Hb.
    destruct Hb as [<-|[<-|[<-|[]]]]; assumption.
Qed.

Lemma undecorate_keeps (el : Element) :
  localName (undecorate el) = localName el
  /\ textContent (undecorate el) = textContent el
  /\ parentElement (undecorate el) = parentElement el.
Proof.
  unfold undecorate. destruct (decoratedSelector el); repeat split.
Qed.

(** With the editor and the tree present, [clearDecorations] removes the
    three decoration classes from every element and nothing else: each
    element keeps its place, name, text, parent and all other classes,
    and the source text, the engine's mode, the clock and the timers are
    as before. *)
Theorem clearDecorations_removes_only_tags (st : State) (els : list Element) :
  vditor st = true -> irContainer st = Some els ->
  irContainer (clearDecorations st) = Some (List.map undecorate els)
  /\ (forall i el,
         els !! i = Some el ->
         exists el',
           List.map undecorate els !! i = Some el'
           /\ localName el' = localName el
           /\ textContent el' = textContent el
           /\ parentElement el' = parentElement el
           /\ forall c,
               contains c el'
               = contains c el
                 && negb (existsb (String.eqb c) decorationClasses))
  /\ value (clearDecorations st) = value st
  /\ currentMode (clearDecorations st) = currentMode st
  /\ now (clearDecorations st) = now st
  /\ timers (clearDecorations st) = timers st.
Proof.
  intros Hv Hc.
  destruct st as [v cm val c pm tb n ts]; simpl in *. subst v c.
  unfold clearDecorations, hideFloatingToolbar; simpl.
  split; [destruct tb; reflexivity|].
  split; [|destruct tb; repeat split].
  intros i el Hel. exists (undecorate el).
  split; [|].
  - change (List.map undecorate els) with (undecorate <$> els).
    now rewrite list_lookup_fmap, Hel.
  - destruct (undecorate_keeps el) as (Hn & Ht & Hp).
    repeat split; try assumption. intros c. apply contains_undecorate.
Qed.

Lemma clearDecorations_removes_only_tags_witness :
  irContainer (clearDecorations sampleEditor)
  = Some (List.map undecorate sampleTree)
  /\ value (clearDecorations sampleEditor) = value sampleEditor.
Proof.
  destruct (clearDecorations_removes_only_tags sampleEditor sampleTree)
    as (Hc & _ & Hval & _); [reflexivity|reflexivity|].
  split; [exact Hc|exact Hval].
Defined.

End ClearFrame.

(* ================================================================== *)
(** * The retry ceiling *)
(* ================================================================== *)

Section Retries.

Lemma irContainer_setClock (t : Z) (ts : list (Z * Task)) (st : State) :
  irContainer (setClock t ts st) = irContainer st.
Proof. reflexivity. Qed.

Lemma timers_setClock (t : Z) (ts : list (Z * Task)) (st : State) :
  timers (setClock t ts st) = ts.
Proof. reflexivity. Qed.

Lemma floatingToolbar_setClock (t : Z) (ts : list (Z * Task)) (st : State) :
  floatingToolbar (setClock t ts st) = floatingToolbar st.
Proof. reflexivity. Qed.

Lemma value_setClock (t : Z) (ts : list (Z * Task)) (st : State) :
  value (setClock t ts st) = value st.
Proof. reflexivity. Qed.

Lemma run_two (st : State) (e1 e2 : Event) :
  run st [e1; e2] = handle (handle st e1) e2.
Proof. reflexivity. Qed.


Lemma handle_Timeout_single (st : State) (due : Z) (task : Task) :
  timers st = [(due, task)] ->
  handle st Timeout = runTask task (setClock (Z.max (now st) due) [] st).
Proof. intros H. unfold handle, nextTimer. rewrite H. reflexivity. Qed.

Lemma handle_Timeout_none (st : State) :
  timers st = [] -> handle st Timeout = st.
Proof. intros H. unfold handle, nextTimer. rewrite H. reflexivity. Qed.

Lemma tagPass_no_tree (d : Decorations) (retry : nat) (st : State) :
  irContainer st = None -> (retry < 5)%nat ->
  tagPass d retry st = setTimeout (CallApply (Some d) (retry + 1)) 200 st.
Proof.
  intros Hc Hr. unfold tagPass. rewrite Hc.
  apply Nat.ltb_lt in Hr. now rewrite Hr.
Qed.

Lemma tagPass_gives_up (d : Decorations) (retry : nat) (st : State) :
  irContainer st = None -> (5 <= retry)%nat -> tagPass d retry st = st.
Proof.
  intros Hc Hr. unfold tagPass. rewrite Hc.
  apply Nat.ltb_ge in Hr. now rewrite Hr.
Qed.

(** A pending tagging pass that meets an editor without tree: the pass
    fires, and below the ceiling the call that it schedules fires too
    and schedules the next pass. *)
Lemma retry_round (d : Decorations) (retry : nat) (st : State) (due : Z) :
  vditor st = true -> irContainer st = None ->
  timers st = [(due, TagPass d retry)] -> now st <= due ->
  (retry < 5)%nat ->
  let st' := run st [Timeout; Timeout] in
  vditor st' = true /\ irContainer st' = None
  /\ timers st' = [(due + 400, TagPass d (retry + 1))]
  /\ now st' = due + 200
  /\ floatingToolbar st' = floatingToolbar st
  /\ value st' = value st.
Proof.
  intros Hv Hc Ht Hnow Hr st'. subst st'.
  rewrite run_two.
  rewrite (handle_Timeout_single st due _ Ht).
  cbn [runTask]. rewrite tagPass_no_tree by (exact Hc || exact Hr).
  rewrite (handle_Timeout_single _ (due + 200) (CallApply (Some d) (retry + 1)));
    [|cbn; rewrite Z.max_r by lia; reflexivity].
  cbn [runTask].
  rewrite applyDecorationsToVditor_absent by (cbn; assumption).
  cbn. rewrite !Z.max_r by lia.
  replace (due + 200 + 200) with (due + 400) by lia.
  repeat split.
Qed.

Lemma run_app (st : State) (l1 l2 : list Event) :
  run st (l1 ++ l2) = run (run st l1) l2.
Proof. unfold run. apply fold_left_app. Qed.

Lemma run_repeat_S (st : State) (e : Event) (n : nat) :
  run st (repeat e (S n)) = handle (run st (repeat e n)) e.
Proof.
  change (repeat e (S n)) with (e :: repeat e n).
  rewrite repeat_cons, run_app. reflexivity.
Qed.

Lemma retry_rounds (d : Decorations) :
  forall (k retry : nat) (st : State) (due : Z),
    vditor st = true -> irContainer st = None ->
    timers st = [(due, TagPass d retry)] -> now st <= due ->
    (retry + k <= 5)%nat ->
    let st' := run st (repeat Timeout (2 * k)) in
    vditor st' = true /\ irContainer st' = None
    /\ timers st' = [(due + 400 * Z.of_nat k, TagPass d (retry + k))]
    /\ now st' <= due + 400 * Z.of_nat k
    /\ floatingToolbar st' = floatingToolbar st
    /\ value st' = value st.
Proof.
  induction k as [|k IH]; intros retry st due Hv Hc Ht Hnow Hr st'; subst st'.
  - simpl. rewrite Ht, Nat.add_0_r, Z.add_0_r.
    repeat split; try assumption; lia.
  - replace (2 * S k)%nat with (2 + 2 * k)%nat by lia.
    rewrite repeat_app, run_app.
    destruct (retry_round d retry st due Hv Hc Ht Hnow ltac:(lia))
      as (Hv1 & Hc1 & Ht1 & Hn1 & Htb1 & Hval1).
    change (repeat Timeout 2) with [Timeout; Timeout].
    destruct (IH (retry + 1)%nat (run st [Timeout; Timeout]) (due + 400)
                 Hv1 Hc1 Ht1 ltac:(lia) ltac:(lia))
      as (Hv2 & Hc2 & Ht2 & Hn2 & Htb2 & Hval2).
    split; [exact Hv2|]. split; [exact Hc2|].
    split.
    { rewrite Ht2.
      replace (due + 400 + 400 * Z.of_nat k)
        with (due + 400 * Z.of_nat (S k)) by lia.
      replace (retry + 1 + k)%nat with (retry + S k)%nat by lia.
      reflexivity. }
    split; [lia|]. split; congruence.
Qed.

(** The retry ceiling: while the tree never appears, a call is retried
    five times, 400 ms apart, and after the sixth tagging pass nothing
    is pending any more; the tree, the affordance and the source text
    are untouched, and further timeouts do nothing. *)
Theorem retries_stop_after_five (d : Decorations) (st : State) :
  vditor st = true -> irContainer st = None -> timers st = [] ->
  let st1 := applyDecorationsToVditor (Some d) 0 st in
  timers (run st1 (repeat Timeout 10)) = [(now st + 2200, TagPass d 5)]
  /\ timers (run st1 (repeat Timeout 11)) = []
  /\ irContainer (run st1 (repeat Timeout 11)) = None
  /\ floatingToolbar (run st1 (repeat Timeout 11)) = floatingToolbar st
  /\ value (run st1 (repeat Timeout 11)) = value st
  /\ run st1 (repeat Timeout 12) = run st1 (repeat Timeout 11).
Proof.
  intros Hv Hc Ht st1.
  assert (H1 : vditor st1 = true /\ irContainer st1 = None
               /\ timers st1 = [(now st + 200, TagPass d 0)]
               /\ now st1 = now st
               /\ floatingToolbar st1 = floatingToolbar st
               /\ value st1 = value st).
  { subst st1. rewrite (applyDecorationsToVditor_absent d 0 st Hv Hc).
    cbn. rewrite Ht. repeat split. }
  clearbody st1.
  destruct H1 as (Hv1 & Hc1 & Ht1 & Hn1 & Htb1 & Hval1).
  pose proof (retry_rounds d 5 0 st1 (now st + 200) Hv1 Hc1 Ht1
                           ltac:(lia) ltac:(lia)) as H2.
  replace (2 * 5)%nat with 10%nat in H2 by reflexivity.
  replace (0 + 5)%nat with 5%nat in H2 by reflexivity.
  replace (now st + 200 + 400 * Z.of_nat 5) with (now st + 2200) in H2
    by lia.
  rewrite (run_repeat_S st1 Timeout 11), (run_repeat_S st1 Timeout 10).
  remember (run st1 (repeat Timeout 10)) as s10 eqn:Hs10. clear Hs10.
  cbv zeta in H2.
  destruct H2 as (Hv2 & Hc2 & Ht2 & Hn2 & Htb2 & Hval2).
  split; [exact Ht2|].
  rewrite (handle_Timeout_single s10 _ _ Ht2).
  unfold runTask.
  rewrite tagPass_gives_up;
    [|rewrite irContainer_setClock; exact Hc2|apply Nat.le_refl].
  rewrite timers_setClock, irContainer_setClock, floatingToolbar_setClock,
    value_setClock.
  split; [reflexivity|]. split; [exact Hc2|].
  split; [congruence|]. split; [congruence|].
  apply handle_Timeout_none. apply timers_setClock.
Qed.

Lemma retries_stop_after_five_witness :
  let st1 := applyDecorationsToVditor (Some changeA) 0
                                      (exampleEditor twoLines) in
  timers (run st1 (repeat Timeout 10)) = [(2200, TagPass changeA 5)]
  /\ timers (run st1 (repeat Timeout 11)) = [].
Proof.
  destruct (retries_stop_after_five changeA (exampleEditor twoLines))
    as (H10 & H11 & _); [reflexivity|reflexivity|reflexivity|].
  split; [exact H10|exact H11].
Defined.

End Retries.

(* ================================================================== *)
(** * Selection resolver: the range of every result *)
(* ================================================================== *)

Section ResolverRange.

(** The offset loop returns its default or a line of the list. *)
Lemma lineOfOffset_range (lines : list jsstring) :
  forall offset charCount i dflt,
    lineOfOffset lines offset charCount i dflt = dflt
    \/ i <= fst (lineOfOffset lines offset charCount i dflt)
       < i + Z.of_nat (List.length lines).
Proof.
  induction lines as [|l rest IH]; intros offset charCount i dflt;
    [now left|].
  cbn [lineOfOffset].
  destruct (charCount + (len l + 1) >? offset).
  - right. cbn [fst List.length]. lia.
  - destruct (IH offset (charCount + (len l + 1)) (i + 1) dflt) as [H|H];
      [now left|right].
    cbn [List.length]. lia.
Qed.

(** A later offset lies on the same or on a later line. *)
Lemma lineOfOffset_mono (lines : list jsstring) :
  forall a b charCount i da db,
    a <= b ->
    lineOfOffset lines b charCount i db = db
    \/ (i <= fst (lineOfOffset lines a charCount i da)
        <= fst (lineOfOffset lines b charCount i db)
        /\ fst (lineOfOffset lines b charCount i db)
           < i + Z.of_nat (List.length lines)).
Proof.
  induction lines as [|l rest IH]; intros a b charCount i da db Hab;
    [now left|].
  cbn [lineOfOffset].
  destruct (charCount + (len l + 1) >? b) eqn:Eb.
  - assert ((charCount + (len l + 1) >? a) = true) as ->.
    { apply Z.gtb_lt in Eb. apply Z.gtb_lt. lia. }
    right. cbn [fst List.length]. lia.
  - destruct (charCount + (len l + 1) >? a) eqn:Ea.
    + destruct (lineOfOffset_range rest b (charCount + (len l + 1))
                                   (i + 1) db) as [H|H]; [now left|right].
      cbn [fst List.length]. lia.
    + destruct (IH a b (charCount + (len l + 1)) (i + 1) da db Hab)
        as [H|H]; [now left|right].
      cbn [List.length]. lia.
Qed.

Lemma firstLineFallback_Some (selectedText first : jsstring) (nlines : Z) :
  forall lines i info,
    firstLineFallback selectedText first nlines lines i = Some info ->
    text info = selectedText
    /\ i <= startLine info < i + Z.of_nat (List.length lines)
    /\ endLine info
       = Z.min (startLine info
                + Z.of_nat (List.length (split selectedText)) - 1)
               (nlines - 1).
Proof.
  induction lines as [|l rest IH]; intros i info H; [discriminate|].
  cbn [firstLineFallback] in H.
  destruct (includes l first).
  - injection H as <-. cbn [text startLine endLine List.length].
    repeat split; lia.
  - destruct (IH _ _ H) as (Ht & Hs & He).
    cbn [List.length]. repeat split; [exact Ht|lia|lia|exact He].
Qed.

Lemma split_length_pos (s : jsstring) : (0 < List.length (split s))%nat.
Proof.
  pose proof (split_nonempty s). destruct (split s); [contradiction|].
  simpl. lia.
Qed.

(** Whatever tier finds the selection, the range that the resolver
    returns carries the selected text and lies inside the document: its
    start line is a line of the source and its end line is not before
    the start line and not past the last line. *)
Theorem selection_range_inside_document
        (st : State) (selectedText : jsstring) (info : SelectionInfo) :
  getSelectionLineRange st selectedText = Some info ->
  text info = selectedText
  /\ 0 <= startLine info <= endLine info
  /\ endLine info < Z.of_nat (List.length (split (value st))).
Proof.
  unfold getSelectionLineRange.
  destruct (negb (vditor st) || negb (truthy selectedText)); [discriminate|].
  set (lines := split (value st)).
  pose proof (split_length_pos (value st)) as Hpos. fold lines in Hpos.
  set (m := if indexOf (value st) selectedText =? -1
            then normalizedMatch (value st) selectedText
            else indexOf (value st) selectedText).
  destruct (m =? -1).
  - intros H. apply firstLineFallback_Some in H as (Ht & Hs & He).
    pose proof (split_length_pos selectedText).
    split; [exact Ht|]. lia.
  - pose proof (lineOfOffset_range lines m 0 0 (0, 0)) as Hstart.
    destruct (lineOfOffset lines m 0 0 (0, 0)) as [sl sc] eqn:Es.
    pose proof (lineOfOffset_mono lines m (m + len selectedText) 0 0 (0, 0)
                  (sl, sc + len selectedText)
                  ltac:(pose proof (len_nonneg selectedText); lia)) as Hend.
    rewrite Es in Hend.
    destruct (lineOfOffset lines (m + len selectedText) 0 0
                           (sl, sc + len selectedText)) as [el ec] eqn:Ee.
    intros [= <-]. cbn [text startLine endLine fst] in *.
    split; [reflexivity|].
    assert (0 <= sl < Z.of_nat (List.length lines)) as Hsl.
    { destruct Hstart as [H|H]; [injection H as Hs0 _; lia|exact H]. }
    destruct Hend as [H|H]; [injection H as He0 _; lia|lia].
Qed.

Lemma selection_range_inside_document_witness :
  let info := {| text := js "b"; startLine := 1; endLine := 1;
                 startChar := 0; endChar := 1 |} in
  getSelectionLineRange (exampleEditor twoLines) (js "b") = Some info
  /\ 0 <= startLine info <= endLine info
  /\ endLine info < Z.of_nat (List.length (split twoLines)).
Proof.
  intros info. split; [reflexivity|].
  apply (selection_range_inside_document
           (exampleEditor twoLines) (js "b") info).
  reflexivity.
Defined.

(** When the first two tiers find nothing, the fallback answers with the
    first source line that contains the trimmed first line of the
    selection; the end line is that line plus the number of further
    selection lines, cut off at the last line of the source. *)
Theorem fallback_takes_first_containing_line
        (st : State) (selectedText : jsstring) (i : nat) (line : jsstring) :
  vditor st = true -> selectedText <> [] ->
  indexOf (value st) selectedText = -1 ->
  indexOf (collapse_ws (value st)) (trim (collapse_ws selectedText)) = -1 ->
  let fragment := trim (List.hd [] (split selectedText)) in
  let lines := split (value st) in
  nth_error lines i = Some line ->
  includes line fragment = true ->
  (forall j l, (j < i)%nat -> nth_error lines j = Some l ->
               includes l fragment = false) ->
  getSelectionLineRange st selectedText
  = Some {| text := selectedText;
            startLine := Z.of_nat i;
            endLine :=
              Z.min (Z.of_nat i
                     + Z.of_nat (List.length (split selectedText)) - 1)
                    (Z.of_nat (List.length lines) - 1);
            startChar := indexOf line fragment;
            endChar :=
              if (List.length (split selectedText) =? 1)%nat
              then indexOf line fragment + len fragment
              else len (List.last (split selectedText) []) |}.
Proof.
  intros Hv Hne H1 H2 fragment lines Hline Hinc Hfirst.
  unfold getSelectionLineRange.
  rewrite Hv, (truthy_nonempty selectedText Hne), H1.
  cbn [negb orb]. cbn iota.
  change (-1 =? -1) with true. cbn iota.
  unfold normalizedMatch. rewrite H2.
  change (negb (-1 =? -1)) with false. cbn iota.
  change (-1 =? -1) with true. cbn iota.
  fold fragment. fold lines.
  generalize (Z.of_nat (List.length lines)) as nlines. intros nlines.
  replace (Z.of_nat i) with (0 + Z.of_nat i) by lia.
  generalize 0 as base.
  clearbody lines. clear H1 H2.
  revert i Hline Hfirst.
  induction lines as [|l rest IH]; intros i Hline Hfirst base.
  - destruct i; discriminate.
  - destruct i as [|i].
    + injection Hline as ->. cbn [firstLineFallback]. rewrite Hinc.
      rewrite Z.add_0_r. reflexivity.
    + cbn [firstLineFallback].
      rewrite (Hfirst O l ltac:(lia) eq_refl).
      rewrite (IH i Hline); [|intros j l' Hj Hl'; apply (Hfirst (S j) l');
                                [lia|exact Hl']].
      replace (base + 1 + Z.of_nat i) with (base + Z.of_nat (S i)) by lia.
      reflexivity.
Qed.

Lemma fallback_takes_first_containing_line_witness :
  getSelectionLineRange
    (exampleEditor (js "x" ++ LF :: js "say hello"))
    (js "hello" ++ LF :: js "next")
  = Some {| text := js "hello" ++ LF :: js "next";
            startLine := 1; endLine := 1; startChar := 4; endChar := 4 |}.
Proof.
  apply (fallback_takes_first_containing_line
           (exampleEditor (js "x" ++ LF :: js "say hello"))
           (js "hello" ++ LF :: js "next") 1 (js "say hello")).
  - reflexivity.
  - discriminate.
  - reflexivity.
  - reflexivity.
  - reflexivity.
  - reflexivity.
  - intros [|j] l Hj Hl; [|lia].
    injection Hl as <-. reflexivity.
Defined.

End ResolverRange.

(* ================================================================== *)
(** * Selection resolver: the re-expansion of the second tier *)
(* ================================================================== *)

Section ReexpansionCorrect.

Lemma len_app (a b : jsstring) : len (a ++ b) = len a + len b.
Proof. unfold len. rewrite length_app. lia. Qed.

Lemma len_cons (c : N) (a : jsstring) : len (c :: a) = len a + 1.
Proof. unfold len. simpl List.length. lia. Qed.

Lemma wsAt_app (pre rest : jsstring) (c : N) :
  wsAt (pre ++ c :: rest) (len pre) = is_ws c.
Proof.
  unfold wsAt, len.
  destruct (Z.of_nat (List.length pre) <? 0) eqn:E;
    [apply Z.ltb_lt in E; lia|].
  rewrite Nat2Z.id, nth_error_app2 by lia.
  now rewrite Nat.sub_diag.
Qed.

Lemma trimStart_suffix (rest : jsstring) :
  exists run, rest = run ++ trimStart rest
              /\ List.Forall (fun c => is_ws c = true) run.
Proof.
  induction rest as [|c rest IH]; [exists []; split; [reflexivity|constructor]|].
  simpl. destruct (is_ws c) eqn:E.
  - destruct IH as (run & Hrun & Hws). exists (c :: run).
    split; [simpl; now rewrite <- Hrun|constructor; assumption].
  - exists []. split; [reflexivity|constructor].
Qed.

Lemma trimStart_head (rest : jsstring) (c : N) (tl : jsstring) :
  trimStart rest = c :: tl -> is_ws c = false.
Proof.
  induction rest as [|x rest IH]; simpl; [discriminate|].
  destruct (is_ws x) eqn:E; [exact IH|].
  intros [= <- <-]. exact E.
Qed.

Lemma trimStart_length (rest : jsstring) :
  (List.length (trimStart rest) <= List.length rest)%nat.
Proof.
  induction rest as [|x rest IH]; simpl; [lia|].
  destruct (is_ws x); simpl; lia.
Qed.

Variable s : jsstring.

(** The inner loop, started on a white-space code unit, stops on the
    last code unit of the run. *)
Lemma skipWhitespace_run :
  forall rest pre c fuel,
    s = pre ++ c :: rest -> (List.length rest <= fuel)%nat ->
    skipWhitespace fuel s (len pre)
    = len pre + (len rest - len (trimStart rest)).
Proof.
  induction rest as [|c' rest IH]; intros pre c fuel Hs Hfuel.
  - assert (len s - 1 = len pre) as Hlen.
    { rewrite Hs, len_app, len_cons. unfold len. simpl. lia. }
    destruct fuel; simpl; [unfold len; simpl; lia|].
    rewrite Hlen, Z.ltb_irrefl. simpl. unfold len. simpl. lia.
  - destruct fuel as [|fuel]; [simpl in Hfuel; lia|].
    cbn [skipWhitespace].
    assert ((len pre <? len s - 1) = true) as ->.
    { apply Z.ltb_lt. rewrite Hs, len_app, !len_cons.
      pose proof (len_nonneg rest). lia. }
    assert (Hs' : s = (pre ++ [c]) ++ c' :: rest).
    { rewrite Hs, <- app_assoc. reflexivity. }
    assert (wsAt s (len pre + 1) = is_ws c') as ->.
    { replace (len pre + 1) with (len (pre ++ [c]))
        by (rewrite len_app; reflexivity).
      rewrite Hs' at 1. apply wsAt_app. }
    cbn [andb trimStart]. destruct (is_ws c').
    + replace (len pre + 1) with (len (pre ++ [c]))
        by (rewrite len_app; reflexivity).
      rewrite (IH (pre ++ [c]) c' fuel Hs' ltac:(simpl in Hfuel; lia)).
      rewrite len_app, !len_cons. unfold len at 2. simpl. lia.
    + lia.
Qed.

Lemma advance_nil (k : nat) : advance k [] = [].
Proof. destruct k; reflexivity. Qed.

(** The loop on positions computes what the loop on the rest of the
    source computes. *)
Lemma mapBack_advance (target : Z) :
  forall fuel rest pre npos,
    s = pre ++ rest -> (List.length rest <= fuel)%nat ->
    mapBack fuel s target (len pre) npos
    = len s - len (advance (Z.to_nat (target - npos)) rest).
Proof.
  induction fuel as [|fuel IH]; intros rest pre npos Hs Hfuel.
  - destruct rest; [|simpl in Hfuel; lia].
    rewrite advance_nil. rewrite app_nil_r in Hs. subst pre.
    cbn [mapBack]. change (len []) with 0. lia.
  - rewrite mapBack_S.
    destruct (npos <? target) eqn:En.
    + apply Z.ltb_lt in En.
      replace (Z.to_nat (target - npos))
        with (S (Z.to_nat (target - (npos + 1)))) by lia.
      destruct rest as [|c rest].
      * rewrite app_nil_r in Hs. subst pre. rewrite Z.ltb_irrefl.
        cbn [andb]. rewrite advance_nil. change (len []) with 0. lia.
      * assert ((len pre <? len s) = true) as ->.
        { apply Z.ltb_lt. rewrite Hs, len_app, len_cons.
          pose proof (len_nonneg rest). lia. }
        cbn [andb advance].
        assert (wsAt s (len pre) = is_ws c) as ->
            by (rewrite Hs at 1; apply wsAt_app).
        destruct (is_ws c) eqn:Ec.
        -- rewrite (skipWhitespace_run rest pre c (List.length s) Hs).
           2:{ rewrite Hs, length_app. simpl. lia. }
           destruct (trimStart_suffix rest) as (run & Hrun & _).
           assert (Hs' : s = (pre ++ c :: run) ++ trimStart rest).
           { rewrite Hs, <- app_assoc. simpl. now rewrite <- Hrun. }
           replace (len pre + (len rest - len (trimStart rest)) + 1)
             with (len (pre ++ c :: run)).
           2:{ rewrite len_app, len_cons.
               assert (len rest = len run + len (trimStart rest))
                 by (rewrite Hrun at 1; apply len_app).
               lia. }
           apply IH; [exact Hs'|].
           pose proof (trimStart_length rest). simpl in Hfuel. lia.
        -- assert (Hs' : s = (pre ++ [c]) ++ rest).
           { rewrite Hs, <- app_assoc. reflexivity. }
           replace (len pre + 1) with (len (pre ++ [c]))
             by (rewrite len_app; reflexivity).
           apply IH; [exact Hs'|simpl in Hfuel; lia].
    + apply Z.ltb_ge in En. cbn [andb].
      replace (Z.to_nat (target - npos)) with O by lia.
      cbn [advance]. rewrite Hs, len_app. lia.
Qed.

End ReexpansionCorrect.

Section AdvanceCollapse.

Lemma collapse_true_trimStart (rest : jsstring) :
  collapse_from true rest = collapse_from false (trimStart rest).
Proof.
  induction rest as [|c rest IH]; [reflexivity|].
  simpl. destruct (is_ws c) eqn:E; [exact IH|].
  simpl. now rewrite E.
Qed.

Lemma collapse_true_run (run x : jsstring) :
  List.Forall (fun c => is_ws c = true) run ->
  collapse_from true (run ++ x) = collapse_from true x.
Proof.
  induction 1 as [|c run Hc _ IH]; [reflexivity|].
  simpl. now rewrite Hc.
Qed.

(** The rest after [k] rounds normalizes to the normalized text after
    its first [k] code units, and what the rounds consumed normalizes to
    those [k] code units. *)
Lemma advance_collapse :
  forall k rest,
    exists pre,
      rest = pre ++ advance k rest
      /\ collapse_from false pre = firstn k (collapse_from false rest)
      /\ collapse_from false (advance k rest)
         = skipn k (collapse_from false rest).
Proof.
  induction k as [|k IH]; intros rest.
  - exists []. repeat split.
  - destruct rest as [|c rest]; [exists []; repeat split|].
    cbn [advance collapse_from]. destruct (is_ws c) eqn:Ec.
    + destruct (trimStart_suffix rest) as (run & Hrun & Hws).
      destruct (IH (trimStart rest)) as (pre & Hpre & Hfirst & Hskip).
      exists (c :: run ++ pre). split; [|split].
      * simpl. rewrite <- app_assoc, <- Hpre, <- Hrun. reflexivity.
      * cbn [collapse_from firstn]. rewrite Ec. f_equal.
        rewrite collapse_true_run by exact Hws.
        rewrite (collapse_true_trimStart rest), <- Hfirst.
        destruct pre as [|x pre]; [reflexivity|].
        assert (is_ws x = false) as Hx.
        { destruct (trimStart rest) as [|y tl] eqn:Et;
            [destruct (advance k []); discriminate|].
          injection Hpre as -> _. eapply trimStart_head. exact Et. }
        simpl. now rewrite Hx.
      * cbn [skipn]. rewrite (collapse_true_trimStart rest). exact Hskip.
    + destruct (IH rest) as (pre & Hpre & Hfirst & Hskip).
      exists (c :: pre). split; [|split].
      * simpl. now rewrite <- Hpre.
      * cbn [collapse_from firstn]. rewrite Ec. f_equal. exact Hfirst.
      * cbn [skipn]. exact Hskip.
Qed.

(** The re-expansion of a normalized offset [target]: the source offset
    that it returns splits the source where [target] splits the
    normalized source. *)
Lemma mapBack_splits (s : jsstring) (target : Z) :
  0 <= target ->
  let p := mapBack (List.length s) s target 0 0 in
  0 <= p <= len s
  /\ collapse_ws (firstn (Z.to_nat p) s)
     = firstn (Z.to_nat target) (collapse_ws s)
  /\ collapse_ws (skipn (Z.to_nat p) s)
     = skipn (Z.to_nat target) (collapse_ws s).
Proof.
  intros Ht p.
  pose proof (mapBack_advance s target (List.length s) s [] 0
                              eq_refl (Nat.le_refl _)) as Hp.
  change (len []) with 0 in Hp. fold p in Hp. rewrite Z.sub_0_r in Hp.
  destruct (advance_collapse (Z.to_nat target) s)
    as (pre & Hpre & Hfirst & Hskip).
  remember (advance (Z.to_nat target) s) as suf eqn:Hsuf.
  assert (Hls : len s = len pre + len suf)
    by (rewrite Hpre at 1; apply len_app).
  assert (Hlen : p = len pre) by lia.
  assert (Hnat : Z.to_nat p = List.length pre).
  { rewrite Hlen. unfold len. apply Nat2Z.id. }
  assert (Hfirstn : firstn (List.length pre) s = pre).
  { rewrite Hpre at 1. rewrite firstn_app, Nat.sub_diag, firstn_all.
    cbn [firstn]. apply app_nil_r. }
  assert (Hskipn : skipn (List.length pre) s = suf).
  { rewrite Hpre at 1. rewrite skipn_app, Nat.sub_diag, skipn_all.
    reflexivity. }
  split.
  { pose proof (len_nonneg pre). pose proof (len_nonneg suf). lia. }
  rewrite Hnat, Hfirstn, Hskipn. unfold collapse_ws.
  split; [exact Hfirst|exact Hskip].
Qed.

End AdvanceCollapse.

(** The second tier: when the normalized selection occurs in the
    normalized source, the offset that the tier hands on lies inside the
    source and splits it where the first normalized occurrence begins:
    the text before the offset normalizes to the normalized text before
    the occurrence, and the text from the offset on normalizes to a text
    that starts with the normalized selection. *)
Theorem normalizedMatch_offset (sourceMarkdown selectedText : jsstring) :
  let normalizedSource := collapse_ws sourceMarkdown in
  let normalizedSelection := trim (collapse_ws selectedText) in
  let t := indexOf normalizedSource normalizedSelection in
  let p := normalizedMatch sourceMarkdown selectedText in
  t <> -1 ->
  0 <= p <= len sourceMarkdown
  /\ collapse_ws (firstn (Z.to_nat p) sourceMarkdown)
     = firstn (Z.to_nat t) normalizedSource
  /\ collapse_ws (skipn (Z.to_nat p) sourceMarkdown)
     = skipn (Z.to_nat t) normalizedSource
  /\ startsWith (collapse_ws (skipn (Z.to_nat p) sourceMarkdown))
                normalizedSelection = true.
Proof.
  intros normalizedSource normalizedSelection t p Ht.
  destruct (indexOf_from_spec normalizedSelection normalizedSource 0)
    as [H|(k & Hk & Hs & _)]; [contradiction|].
  fold (indexOf normalizedSource normalizedSelection) in Hk. fold t in Hk.
  assert (p = mapBack (List.length sourceMarkdown) sourceMarkdown t 0 0)
    as Hp.
  { unfold p, normalizedMatch. fold normalizedSource normalizedSelection t.
    destruct (t =? -1) eqn:E; [apply Z.eqb_eq in E; contradiction|].
    reflexivity. }
  destruct (mapBack_splits sourceMarkdown t ltac:(lia))
    as (Hrange & Hfirst & Hskip).
  rewrite <- Hp in Hrange, Hfirst, Hskip.
  split; [exact Hrange|]. split; [exact Hfirst|]. split; [exact Hskip|].
  rewrite Hskip. replace (Z.to_nat t) with k by lia. exact Hs.
Qed.

Lemma normalizedMatch_offset_witness :
  normalizedMatch (js "a" ++ LF :: LF :: js "b  c") (js "b c") = 3
  /\ collapse_ws (skipn 3 (js "a" ++ LF :: LF :: js "b  c")) = js "b c".
Proof.
  split; [reflexivity|].
  destruct (normalizedMatch_offset (js "a" ++ LF :: LF :: js "b  c")
                                   (js "b c"))
    as (_ & _ & H & _); [vm_compute; discriminate|].
  exact H.
Defined.

(* ================================================================== *)
(** * Document export: escaping *)
(* ================================================================== *)

Section EscapeXml.

Lemma flat_map_flat_map {A B C} (f : A -> list B) (g : B -> list C)
      (l : list A) :
  flat_map g (flat_map f l) = flat_map (fun x => flat_map g (f x)) l.
Proof.
  induction l as [|x l IH]; [reflexivity|].
  simpl. now rewrite flat_map_app, IH.
Qed.

(** The five replacements in a row on one code unit. *)
Lemma escapeXml_single (c : N) : escapeXml [c] = escapeXmlUnit c.
Proof.
  unfold escapeXml, escapeXmlUnit, replaceAll.
  cbn [flat_map app].
  destruct (c =? chAmp)%N eqn:E1; [reflexivity|].
  cbn [flat_map app].
  destruct (c =? chLt)%N eqn:E2; [reflexivity|].
  cbn [flat_map app].
  destruct (c =? chGt)%N eqn:E3; [reflexivity|].
  cbn [flat_map app].
  destruct (c =? chQuot)%N eqn:E4; [reflexivity|].
  cbn [flat_map app].
  destruct (c =? chApos)%N eqn:E5; reflexivity.
Qed.

Lemma escapeXml_flat_map (text : jsstring) :
  escapeXml text = flat_map escapeXmlUnit text.
Proof.
  unfold escapeXml, replaceAll. rewrite !flat_map_flat_map.
  apply flat_map_ext. intros c.
  pose proof (escapeXml_single c) as H.
  unfold escapeXml, replaceAll in H.
  rewrite !flat_map_flat_map in H. cbn [flat_map] in H.
  rewrite app_nil_r in H. exact H.
Qed.

(** The five replacements, applied one after the other to the whole
    text, escape every code unit on its own: no replacement touches what
    an earlier one has written, and the escape of a text is the
    concatenation of the escapes of its parts. *)
Theorem escapeXml_unit_by_unit :
  (forall text, escapeXml text = flat_map escapeXmlUnit text)
  /\ (forall a b, escapeXml (a ++ b) = escapeXml a ++ escapeXml b).
Proof.
  split; [exact escapeXml_flat_map|].
  intros a b. rewrite !escapeXml_flat_map. apply flat_map_app.
Qed.

Lemma escapeXmlUnit_no_markup (c : N) :
  List.Forall (fun x => x <> chLt /\ x <> chGt /\ x <> chQuot /\ x <> chApos)
              (escapeXmlUnit c).
Proof.
  unfold escapeXmlUnit.
  destruct (c =? chAmp)%N eqn:E1;
    [repeat constructor; discriminate|].
  destruct (c =? chLt)%N eqn:E2;
    [repeat constructor; discriminate|].
  destruct (c =? chGt)%N eqn:E3;
    [repeat constructor; discriminate|].
  destruct (c =? chQuot)%N eqn:E4;
    [repeat constructor; discriminate|].
  destruct (c =? chApos)%N eqn:E5;
    [repeat constructor; discriminate|].
  apply N.eqb_neq in E2, E3, E4, E5.
  repeat constructor; assumption.
Qed.

(** The escaped text holds no [<], [>], double quote or apostrophe. *)
Theorem escapeXml_no_markup (text : jsstring) :
  List.Forall (fun x => x <> chLt /\ x <> chGt /\ x <> chQuot /\ x <> chApos)
              (escapeXml text).
Proof.
  rewrite escapeXml_flat_map.
  induction text as [|c text IH]; [constructor|].
  cbn [flat_map]. apply Forall_app. split;
    [apply escapeXmlUnit_no_markup|exact IH].
Qed.

Lemma unescapeXml_other (c : N) (rest : jsstring) :
  c <> chAmp -> unescapeXml (c :: rest) = c :: unescapeXml rest.
Proof.
  intros Hc. destruct c as [|p]; [reflexivity|].
  do 6 (try (destruct p as [p|p|]; try reflexivity)).
  exfalso. apply Hc. reflexivity.
Qed.

Lemma unescapeXml_unit (c : N) (rest : jsstring) :
  unescapeXml (escapeXmlUnit c ++ rest) = c :: unescapeXml rest.
Proof.
  unfold escapeXmlUnit.
  destruct (c =? chAmp)%N eqn:E1;
    [apply N.eqb_eq in E1; subst c; reflexivity|].
  destruct (c =? chLt)%N eqn:E2;
    [apply N.eqb_eq in E2; subst c; reflexivity|].
  destruct (c =? chGt)%N eqn:E3;
    [apply N.eqb_eq in E3; subst c; reflexivity|].
  destruct (c =? chQuot)%N eqn:E4;
    [apply N.eqb_eq in E4; subst c; reflexivity|].
  destruct (c =? chApos)%N eqn:E5;
    [apply N.eqb_eq in E5; subst c; reflexivity|].
  apply N.eqb_neq in E1. cbn [app]. now apply unescapeXml_other.
Qed.

Lemma unescapeXml_escapeXml (text : jsstring) :
  unescapeXml (escapeXml text) = text.
Proof.
  rewrite escapeXml_flat_map.
  induction text as [|c text IH]; [reflexivity|].
  cbn [flat_map]. now rewrite unescapeXml_unit, IH.
Qed.

(** Escaping loses nothing: two texts with the same escape are the same
    text. *)
Theorem escapeXml_injective (a b : jsstring) :
  escapeXml a = escapeXml b -> a = b.
Proof.
  intros H. rewrite <- (unescapeXml_escapeXml a), <- (unescapeXml_escapeXml b).
  now rewrite H.
Qed.

Lemma escapeXml_injective_witness :
  unescapeXml (escapeXml (js "a<b")) = js "a<b".
Proof.
  apply (escapeXml_injective (unescapeXml (escapeXml (js "a<b")))
                             (js "a<b")).
  reflexivity.
Defined.

End EscapeXml.

(* ================================================================== *)
(** * Document export: the layout of the archive *)
(* ================================================================== *)

Section Buffers.

Lemma leBytes_length (n : nat) : forall v, List.length (leBytes n v) = n.
Proof. induction n as [|n IH]; intros v; simpl; [|rewrite IH]; reflexivity. Qed.

Lemma setBytes_length (off : nat) (src buf : list Z) :
  (off + List.length src <= List.length buf)%nat ->
  List.length (setBytes off src buf) = List.length buf.
Proof.
  intros H. unfold setBytes.
  rewrite !length_app, length_firstn, length_skipn. lia.
Qed.

Lemma skipn_repeat_all {A} (x : A) (n : nat) : skipn n (repeat x n) = [].
Proof. apply skipn_all2. now rewrite repeat_length. Qed.

Lemma setBytes_at (pre old rest src : list Z) (off : nat) :
  off = List.length pre -> List.length old = List.length src ->
  setBytes off src (pre ++ old ++ rest) = pre ++ src ++ rest.
Proof.
  intros -> Hlen. unfold setBytes.
  rewrite firstn_app, Nat.sub_diag, firstn_all. cbn [firstn].
  rewrite app_nil_r. f_equal. f_equal.
  rewrite <- Hlen, <- length_app, (app_assoc pre old rest).
  rewrite skipn_app, Nat.sub_diag, skipn_all. reflexivity.
Qed.

Lemma setBytes_at_end (pre old src : list Z) (off : nat) :
  off = List.length pre -> List.length old = List.length src ->
  setBytes off src (pre ++ old) = pre ++ src.
Proof.
  intros Hoff Hlen.
  rewrite <- (app_nil_r old), (setBytes_at pre old [] src off Hoff Hlen).
  now rewrite app_nil_r.
Qed.

Ltac write_fields :=
  repeat match goal with
    | |- context [setBytes ?off ?src (?pre ++ ?old ++ ?rest)] =>
        rewrite (setBytes_at pre old rest src off)
          by (rewrite ?length_app, ?leBytes_length, ?repeat_length;
              reflexivity);
        rewrite (app_assoc pre src rest)
    | |- context [setBytes ?off ?src (?pre ++ ?old)] =>
        rewrite (setBytes_at_end pre old src off)
          by (rewrite ?length_app, ?leBytes_length, ?repeat_length;
              reflexivity)
    end.

(** The header as the bytes of its fields in a row. *)
Lemma localHeaderOf_fields (crc : Z) (content nameBytes : list Z) :
  localHeaderOf crc content nameBytes
  = leBytes 4 (toUint32 0x04034b50) ++ leBytes 2 (toUint16 20)
    ++ leBytes 2 (toUint16 0) ++ leBytes 2 (toUint16 0)
    ++ leBytes 2 (toUint16 0) ++ leBytes 2 (toUint16 0)
    ++ leBytes 4 (toUint32 crc) ++ leBytes 4 (toUint32 (blen content))
    ++ leBytes 4 (toUint32 (blen content))
    ++ leBytes 2 (toUint16 (blen nameBytes)) ++ leBytes 2 (toUint16 0)
    ++ nameBytes.
Proof.
  unfold localHeaderOf, setUint32, setUint16, newUint8Array. cbv zeta.
  change (repeat 0 (30 + List.length nameBytes))
    with ([] ++ repeat 0 4 ++ repeat 0 2 ++ repeat 0 2 ++ repeat 0 2
          ++ repeat 0 2 ++ repeat 0 2 ++ repeat 0 4 ++ repeat 0 4
          ++ repeat 0 4 ++ repeat 0 2 ++ repeat 0 2
          ++ repeat 0 (List.length nameBytes)).
  write_fields.
  rewrite <- !app_assoc. reflexivity.
Qed.

Lemma centralEntryOf_fields (crc : Z) (content nameBytes : list Z)
      (offset : Z) :
  centralEntryOf crc content nameBytes offset
  = leBytes 4 (toUint32 0x02014b50) ++ leBytes 2 (toUint16 20)
    ++ leBytes 2 (toUint16 20) ++ leBytes 2 (toUint16 0)
    ++ leBytes 2 (toUint16 0) ++ leBytes 2 (toUint16 0)
    ++ leBytes 2 (toUint16 0)
    ++ leBytes 4 (toUint32 crc) ++ leBytes 4 (toUint32 (blen content))
    ++ leBytes 4 (toUint32 (blen content))
    ++ leBytes 2 (toUint16 (blen nameBytes)) ++ leBytes 2 (toUint16 0)
    ++ leBytes 2 (toUint16 0) ++ leBytes 2 (toUint16 0)
    ++ leBytes 2 (toUint16 0) ++ leBytes 4 (toUint32 0)
    ++ leBytes 4 (toUint32 offset) ++ nameBytes.
Proof.
  unfold centralEntryOf, setUint32, setUint16, newUint8Array. cbv zeta.
  change (repeat 0 (46 + List.length nameBytes))
    with ([] ++ repeat 0 4 ++ repeat 0 2 ++ repeat 0 2 ++ repeat 0 2
          ++ repeat 0 2 ++ repeat 0 2 ++ repeat 0 2 ++ repeat 0 4
          ++ repeat 0 4 ++ repeat 0 4 ++ repeat 0 2 ++ repeat 0 2
          ++ repeat 0 2 ++ repeat 0 2 ++ repeat 0 2 ++ repeat 0 4
          ++ repeat 0 4 ++ repeat 0 (List.length nameBytes)).
  write_fields.
  rewrite <- !app_assoc. reflexivity.
Qed.

Lemma endRecordOf_fields (nfiles centralDirSize centralDirStart : Z) :
  endRecordOf nfiles centralDirSize centralDirStart
  = leBytes 4 (toUint32 0x06054b50) ++ leBytes 2 (toUint16 0)
    ++ leBytes 2 (toUint16 0) ++ leBytes 2 (toUint16 nfiles)
    ++ leBytes 2 (toUint16 nfiles) ++ leBytes 4 (toUint32 centralDirSize)
    ++ leBytes 4 (toUint32 centralDirStart) ++ leBytes 2 (toUint16 0).
Proof. reflexivity. Qed.

Lemma localHeaderOf_length (crc : Z) (content nameBytes : list Z) :
  List.length (localHeaderOf crc content nameBytes)
  = (30 + List.length nameBytes)%nat.
Proof.
  rewrite localHeaderOf_fields. rewrite !length_app, !leBytes_length.
  reflexivity.
Qed.

Lemma centralEntryOf_length (crc : Z) (content nameBytes : list Z)
      (offset : Z) :
  List.length (centralEntryOf crc content nameBytes offset)
  = (46 + List.length nameBytes)%nat.
Proof.
  rewrite centralEntryOf_fields. rewrite !length_app, !leBytes_length.
  reflexivity.
Qed.

Lemma endRecordOf_length (nfiles centralDirSize centralDirStart : Z) :
  List.length (endRecordOf nfiles centralDirSize centralDirStart) = 22%nat.
Proof. reflexivity. Qed.

(** The copy loop writes the parts one behind the other. *)
Lemma copyParts_from (parts : list (list Z)) :
  forall (pre : list Z),
    fst (fold_left
           (fun '(result, resultOffset) part =>
              (setBytes resultOffset part result,
               (resultOffset + List.length part)%nat))
           parts
           (pre ++ repeat 0 (List.length (concat parts)), List.length pre))
    = pre ++ concat parts.
Proof.
  induction parts as [|part rest IH]; intros pre.
  - simpl. reflexivity.
  - cbn [fold_left concat].
    rewrite length_app, repeat_app.
    rewrite (setBytes_at pre (repeat 0 (List.length part))
                         (repeat 0 (List.length (concat rest))) part
                         (List.length pre) eq_refl (repeat_length _ _)).
    rewrite <- length_app, app_assoc, IH, <- app_assoc. reflexivity.
Qed.

Lemma totalLength_concat (parts : list (list Z)) :
  forall n,
    fold_left (fun sum part => (sum + List.length part)%nat) parts n
    = (n + List.length (concat parts))%nat.
Proof.
  induction parts as [|part rest IH]; intros n; simpl; [lia|].
  rewrite IH, length_app. lia.
Qed.

Lemma copyParts_concat (parts : list (list Z)) :
  copyParts parts
            (fold_left (fun sum part => (sum + List.length part)%nat) parts O)
  = concat parts.
Proof.
  unfold copyParts, newUint8Array. rewrite totalLength_concat. simpl Nat.add.
  apply (copyParts_from parts []).
Qed.

End Buffers.

Section ZipLayout.

(** The loop over the files, in closed form. *)
Lemma fold_zipFile (files : list ZipInput) :
  forall acc,
    fold_left zipFile files acc
    = {| localHeaders := localHeaders acc ++ List.map headerBytesOf files;
         fileData := fileData acc ++ List.map contentBytesOf files;
         centralDirEntries :=
           centralDirEntries acc ++ entriesFrom (offset acc) files;
         offset :=
           offset acc + Z.of_nat (headersSize files)
           + Z.of_nat (contentsSize files) |}.
Proof.
  induction files as [|file rest IH]; intros acc.
  - simpl. rewrite !app_nil_r, !Z.add_0_r. destruct acc; reflexivity.
  - cbn [fold_left]. rewrite IH. unfold zipFile at 1 2 3 4.
    cbn [localHeaders fileData centralDirEntries offset List.map entriesFrom
         headersSize contentsSize].
    fold (contentBytesOf file). fold (nameBytesOf file).
    fold (headerBytesOf file).
    rewrite <- !app_assoc. cbn [app].
    f_equal. unfold zipFile. cbn [offset].
    fold (contentBytesOf file). fold (nameBytesOf file).
    unfold blen. rewrite localHeaderOf_length. lia.
Qed.

Lemma length_concat_headers (files : list ZipInput) :
  List.length (concat (List.map headerBytesOf files)) = headersSize files.
Proof.
  induction files as [|file rest IH]; [reflexivity|].
  cbn [List.map concat headersSize]. rewrite length_app, IH.
  unfold headerBytesOf. rewrite localHeaderOf_length. lia.
Qed.

Lemma length_concat_contents (files : list ZipInput) :
  List.length (concat (List.map contentBytesOf files)) = contentsSize files.
Proof.
  induction files as [|file rest IH]; [reflexivity|].
  cbn [List.map concat contentsSize]. now rewrite length_app, IH.
Qed.

Lemma length_concat_entries (files : list ZipInput) :
  forall off,
    List.length (concat (entriesFrom off files)) = directorySize files.
Proof.
  induction files as [|file rest IH]; intros off; [reflexivity|].
  cbn [entriesFrom concat directorySize].
  rewrite length_app, IH, centralEntryOf_length. lia.
Qed.

Lemma centralDirSize_entries (entries : list (list Z)) :
  forall n,
    fold_left (fun sum e => sum + blen e) entries n
    = n + Z.of_nat (List.length (concat entries)).
Proof.
  induction entries as [|e rest IH]; intros n; simpl; [lia|].
  rewrite IH, length_app. unfold blen. lia.
Qed.

(** The archive: all local headers, then all contents, then the
    directory, then the end record. *)
Lemma createZipFile_layout (files : list ZipInput) :
  createZipFile files
  = concat (List.map headerBytesOf files)
    ++ concat (List.map contentBytesOf files)
    ++ concat (entriesFrom 0 files)
    ++ endRecordOf (Z.of_nat (List.length files))
                   (Z.of_nat (directorySize files))
                   (Z.of_nat (headersSize files)
                    + Z.of_nat (contentsSize files)).
Proof.
  unfold createZipFile. cbv zeta. rewrite copyParts_concat.
  rewrite (fold_zipFile files (mkZipLoop [] [] [] 0)).
  cbn [localHeaders fileData centralDirEntries offset app].
  rewrite centralDirSize_entries, length_concat_entries.
  rewrite !concat_app. cbn [concat]. rewrite app_nil_r.
  rewrite !Z.add_0_l. reflexivity.
Qed.

End ZipLayout.

Section ZipOffsets.

Lemma skipn_position (a b : list Z) (n : nat) :
  n = List.length a -> skipn n (a ++ b) = b.
Proof.
  intros ->. rewrite skipn_app, Nat.sub_diag, skipn_all. reflexivity.
Qed.

Lemma firstn_position (x b : list Z) (k : nat) :
  k = List.length x -> firstn k (x ++ b) = x.
Proof.
  intros ->. rewrite firstn_app, Nat.sub_diag, firstn_all, firstn_O.
  apply app_nil_r.
Qed.

Lemma at_position (a x b : list Z) (n k : nat) :
  n = List.length a -> k = List.length x ->
  firstn k (skipn n (a ++ x ++ b)) = x.
Proof.
  intros Hn Hk. rewrite (skipn_position a (x ++ b) n Hn).
  apply firstn_position. exact Hk.
Qed.

(** Little-endian bytes stand for the number they were made from. *)
Lemma leValue_leBytes (n : nat) :
  forall v, 0 <= v -> leValue (leBytes n v) = v mod 2 ^ (8 * Z.of_nat n).
Proof.
  induction n as [|n IH]; intros v Hv.
  - simpl. now rewrite Z.mod_1_r.
  - cbn [leBytes leValue].
    rewrite IH by (apply Z.shiftr_nonneg; exact Hv).
    change 255 with (Z.ones 8). rewrite Z.land_ones by lia.
    rewrite Z.shiftr_div_pow2 by lia.
    replace (8 * Z.of_nat (S n)) with (8 + 8 * Z.of_nat n) by lia.
    rewrite Z.pow_add_r by lia.
    change (2 ^ 8) with 256.
    rewrite (Z.rem_mul_r v 256 (2 ^ (8 * Z.of_nat n))) by lia.
    reflexivity.
Qed.

Lemma leValue_uint32 (v : Z) :
  leValue (leBytes 4 (toUint32 v)) = v mod 2 ^ 32.
Proof.
  unfold toUint32. rewrite leValue_leBytes by (apply Z.mod_pos_bound; lia).
  change (2 ^ (8 * Z.of_nat 4)) with (2 ^ 32).
  apply Z.mod_mod. lia.
Qed.

Lemma leValue_uint16 (v : Z) :
  leValue (leBytes 2 (toUint16 v)) = v mod 2 ^ 16.
Proof.
  unfold toUint16. rewrite leValue_leBytes by (apply Z.mod_pos_bound; lia).
  change (2 ^ (8 * Z.of_nat 2)) with (2 ^ 16).
  apply Z.mod_mod. lia.
Qed.

(** The field at offset 42 of a directory entry: the recorded offset of
    the local header. *)
Lemma centralEntryOf_offset_field (crc : Z) (content nameBytes : list Z)
      (offset : Z) :
  firstn 4 (skipn 42 (centralEntryOf crc content nameBytes offset))
  = leBytes 4 (toUint32 offset).
Proof.
  rewrite centralEntryOf_fields. rewrite !app_assoc.
  rewrite <- (app_assoc _ (leBytes 4 (toUint32 offset)) nameBytes).
  apply at_position;
    rewrite ?length_app, ?leBytes_length; reflexivity.
Qed.

Lemma entriesFrom_app (pre : list ZipInput) :
  forall off rest,
    entriesFrom off (pre ++ rest)
    = entriesFrom off pre
      ++ entriesFrom (off + Z.of_nat (headersSize pre)
                      + Z.of_nat (contentsSize pre)) rest.
Proof.
  induction pre as [|file pre IH]; intros off rest.
  - cbn. now rewrite !Z.add_0_r.
  - cbn [app entriesFrom headersSize contentsSize]. rewrite IH.
    f_equal. f_equal. unfold blen, headerBytesOf.
    rewrite localHeaderOf_length. f_equal. lia.
Qed.

Lemma headersSize_app (a b : list ZipInput) :
  headersSize (a ++ b) = (headersSize a + headersSize b)%nat.
Proof. induction a as [|f a IH]; simpl; [reflexivity|]. rewrite IH. lia. Qed.

Lemma contentsSize_app (a b : list ZipInput) :
  contentsSize (a ++ b) = (contentsSize a + contentsSize b)%nat.
Proof. induction a as [|f a IH]; simpl; [reflexivity|]. rewrite IH. lia. Qed.

(** The archive is as long as its regions together: a 30-byte header
    plus the name for every file, every content, a 46-byte directory
    entry plus the name for every file, and the 22-byte end record. *)
Theorem createZipFile_length (files : list ZipInput) :
  List.length (createZipFile files)
  = (headersSize files + contentsSize files + directorySize files + 22)%nat.
Proof.
  rewrite createZipFile_layout, !length_app.
  rewrite length_concat_headers, length_concat_contents,
    length_concat_entries, endRecordOf_length.
  lia.
Qed.

(** The end record closes the archive and points at the directory: the
    last 22 bytes begin with the end signature and record the number of
    files (as a 16-bit number), the size of the directory and the offset
    at which the directory really begins (as 32-bit numbers). *)
Theorem end_record_locates_directory (files : list ZipInput) :
  let bytes := createZipFile files in
  let start := (headersSize files + contentsSize files)%nat in
  let record := skipn (start + directorySize files) bytes in
  skipn start bytes = concat (entriesFrom 0 files) ++ record
  /\ List.length record = 22%nat
  /\ firstn 4 record = [80; 75; 5; 6]
  /\ leValue (firstn 2 (skipn 8 record))
     = Z.of_nat (List.length files) mod 2 ^ 16
  /\ leValue (firstn 2 (skipn 10 record))
     = Z.of_nat (List.length files) mod 2 ^ 16
  /\ leValue (firstn 4 (skipn 12 record))
     = Z.of_nat (directorySize files) mod 2 ^ 32
  /\ leValue (firstn 4 (skipn 16 record)) = Z.of_nat start mod 2 ^ 32.
Proof.
  intros bytes start record.
  set (nfiles := Z.of_nat (List.length files)).
  set (dsize := Z.of_nat (directorySize files)).
  assert (Hrecord : record = endRecordOf nfiles dsize (Z.of_nat start)).
  { unfold record, bytes. rewrite createZipFile_layout.
    rewrite !app_assoc. unfold start. rewrite Nat2Z.inj_add.
    apply skipn_position.
    rewrite !length_app, length_concat_headers, length_concat_contents,
      length_concat_entries. reflexivity. }
  split.
  { rewrite Hrecord. unfold bytes. rewrite createZipFile_layout.
    rewrite app_assoc. unfold start at 2. rewrite Nat2Z.inj_add.
    apply skipn_position.
    now rewrite length_app, length_concat_headers, length_concat_contents. }
  rewrite Hrecord, endRecordOf_fields.
  split; [rewrite !length_app, !leBytes_length; reflexivity|].
  split; [reflexivity|].
  cbn [leBytes app skipn firstn].
  change [Z.land (toUint16 nfiles) 255;
          Z.land (Z.shiftr (toUint16 nfiles) 8) 255]
    with (leBytes 2 (toUint16 nfiles)).
  change [Z.land (toUint32 dsize) 255;
          Z.land (Z.shiftr (toUint32 dsize) 8) 255;
          Z.land (Z.shiftr (Z.shiftr (toUint32 dsize) 8) 8) 255;
          Z.land (Z.shiftr (Z.shiftr (Z.shiftr (toUint32 dsize) 8) 8) 8) 255]
    with (leBytes 4 (toUint32 dsize)).
  change [Z.land (toUint32 (Z.of_nat start)) 255;
          Z.land (Z.shiftr (toUint32 (Z.of_nat start)) 8) 255;
          Z.land (Z.shiftr (Z.shiftr (toUint32 (Z.of_nat start)) 8) 8) 255;
          Z.land (Z.shiftr
                    (Z.shiftr (Z.shiftr (toUint32 (Z.of_nat start)) 8) 8) 8)
                 255]
    with (leBytes 4 (toUint32 (Z.of_nat start))).
  rewrite !leValue_uint16, !leValue_uint32. repeat split.
Qed.

(** Where the parts of one file lie and what the directory says.  For
    the file behind the files [pre]: its local header begins after the
    local headers of [pre]; its content begins after all local headers
    and the contents of [pre]; but its directory entry records, as the
    offset of its local header, the size of the headers and of the
    contents of [pre] together.  The recorded offset is the position of
    the header only when the files before it have no content. *)
Theorem directory_offset_and_header_position
        (pre post : list ZipInput) (file : ZipInput) :
  let files := pre ++ file :: post in
  let bytes := createZipFile files in
  let start := (headersSize files + contentsSize files)%nat in
  firstn (30 + List.length (nameBytesOf file))
         (skipn (headersSize pre) bytes) = headerBytesOf file
  /\ firstn (List.length (contentBytesOf file))
            (skipn (headersSize files + contentsSize pre) bytes)
     = contentBytesOf file
  /\ exists entry,
      firstn (46 + List.length (nameBytesOf file))
             (skipn (start + directorySize pre) bytes) = entry
      /\ List.length entry = (46 + List.length (nameBytesOf file))%nat
      /\ leValue (firstn 4 (skipn 42 entry))
         = Z.of_nat (headersSize pre + contentsSize pre) mod 2 ^ 32.
Proof.
  intros files bytes start.
  set (entryOffset :=
         0 + Z.of_nat (headersSize pre) + Z.of_nat (contentsSize pre)).
  set (entry := centralEntryOf (crc32 (contentBytesOf file))
                               (contentBytesOf file) (nameBytesOf file)
                               entryOffset).
  assert (HH : concat (List.map headerBytesOf files)
               = concat (List.map headerBytesOf pre)
                 ++ headerBytesOf file
                 ++ concat (List.map headerBytesOf post)).
  { unfold files. now rewrite List.map_app, concat_app. }
  assert (CC : concat (List.map contentBytesOf files)
               = concat (List.map contentBytesOf pre)
                 ++ contentBytesOf file
                 ++ concat (List.map contentBytesOf post)).
  { unfold files. now rewrite List.map_app, concat_app. }
  assert (EE : exists after,
             concat (entriesFrom 0 files)
             = concat (entriesFrom 0 pre) ++ entry ++ after).
  { unfold files. rewrite entriesFrom_app, concat_app.
    cbn [entriesFrom concat]. eexists. reflexivity. }
  destruct EE as (Epost & EE).
  assert (Hlen : List.length (concat (List.map headerBytesOf files))
                 = headersSize files) by apply length_concat_headers.
  assert (Clen : List.length (concat (List.map contentBytesOf files))
                 = contentsSize files) by apply length_concat_contents.
  pose proof (length_concat_headers pre) as Hprelen.
  pose proof (length_concat_contents pre) as Cprelen.
  pose proof (length_concat_entries pre 0) as Eprelen.
  assert (Hbytes :
            bytes
            = concat (List.map headerBytesOf files)
              ++ concat (List.map contentBytesOf files)
              ++ concat (entriesFrom 0 files)
              ++ endRecordOf (Z.of_nat (List.length files))
                             (Z.of_nat (directorySize files))
                             (Z.of_nat (headersSize files)
                              + Z.of_nat (contentsSize files)))
    by apply createZipFile_layout.
  remember (endRecordOf _ _ _) as R eqn:HR. clear HR.
  remember (concat (List.map headerBytesOf files)) as H eqn:HeqH.
  remember (concat (List.map contentBytesOf files)) as C eqn:HeqC.
  remember (concat (entriesFrom 0 files)) as E eqn:HeqE.
  remember (concat (List.map headerBytesOf pre)) as Hpre eqn:HeqHpre.
  remember (concat (List.map contentBytesOf pre)) as Cpre eqn:HeqCpre.
  remember (concat (entriesFrom 0 pre)) as Epre eqn:HeqEpre.
  remember (concat (List.map headerBytesOf post)) as Hpost eqn:HeqHpost.
  remember (concat (List.map contentBytesOf post)) as Cpost eqn:HeqCpost.
  clear HeqH HeqC HeqE HeqHpre HeqCpre HeqEpre HeqHpost HeqCpost.
  split; [|split].
  - rewrite Hbytes, HH, <- !app_assoc.
    apply at_position; [now rewrite Hprelen|].
    unfold headerBytesOf. now rewrite localHeaderOf_length.
  - rewrite Hbytes.
    replace (H ++ C ++ E ++ R)
      with ((H ++ Cpre) ++ contentBytesOf file ++ (Cpost ++ E ++ R))
      by (rewrite CC, <- !app_assoc; reflexivity).
    apply at_position; [|reflexivity].
    now rewrite length_app, Hlen, Cprelen.
  - exists entry. split.
    + rewrite Hbytes.
      replace (H ++ C ++ E ++ R)
        with ((H ++ C ++ Epre) ++ entry ++ (Epost ++ R))
        by (rewrite EE, <- !app_assoc; reflexivity).
      apply at_position.
      * unfold start. rewrite !length_app, Hlen, Clen, Eprelen. lia.
      * unfold entry. now rewrite centralEntryOf_length.
    + split; [unfold entry; apply centralEntryOf_length|].
      unfold entry. rewrite centralEntryOf_offset_field, leValue_uint32.
      unfold entryOffset. f_equal. lia.
Qed.

End ZipOffsets.
